(** * TOTP for the Mi Band 9: a shallow embedding of [src/service/totp.js]

    The JavaScript class [TOTP] computes RFC 4226 / RFC 6238 one-time
    passwords with its own SHA-1, HMAC and Base32 decoder.  This file
    embeds those methods as Rocq functions and states what they compute.

    Conventions of the embedding
    - a JS number holding an integer is a [Z]; the bitwise operators go
      through [ToInt32] / [ToUint32] exactly as ECMAScript prescribes;
    - a [Uint8Array] is a [list Z] of bytes; an out-of-range read is
      [None] (JS [undefined]);
    - a JS string is a [string]: its characters are the code units
      0..255 (ISO Latin-1).  [toUpperCase] leaves that range for two of
      them and lengthens one, so uppercased text is a list of code points;
    - [Math.floor (timestamp / 1000 / period)] is computed over the
      rationals: the rounding of doubles is outside the embedding. *)

From Stdlib Require Import String Ascii ZArith List Bool Lia QArith Qround.
Import ListNotations.
Local Open Scope Z_scope.
Local Open Scope list_scope.

(** ** ECMAScript integer primitives *)

Module JS.

Definition ToUint32 (x : Z) : Z := x mod 2 ^ 32.

Definition ToInt32 (x : Z) : Z := (x + 2 ^ 31) mod 2 ^ 32 - 2 ^ 31.

(** [a & b], [a | b], [a ^ b], [~a]: operands through [ToInt32], the
    result is a signed 32-bit integer. *)
Definition band (a b : Z) : Z := Z.land (ToInt32 a) (ToInt32 b).
Definition bor (a b : Z) : Z := Z.lor (ToInt32 a) (ToInt32 b).
Definition bxor (a b : Z) : Z := Z.lxor (ToInt32 a) (ToInt32 b).
Definition bnot (a : Z) : Z := Z.lnot (ToInt32 a).

(** [a << n]: the count is taken modulo 32, the result wraps to int32. *)
Definition shl (a n : Z) : Z :=
  ToInt32 (Z.shiftl (ToInt32 a) (ToUint32 n mod 32)).

(** [a >>> n]: unsigned shift, the result is a uint32. *)
Definition shru (a n : Z) : Z :=
  Z.shiftr (ToUint32 a) (ToUint32 n mod 32).

(** [Math.ceil (a / b)] for naturals [a] and [b > 0]. *)
Definition ceil_div (a b : nat) : nat := ((a + (b - 1)) / b)%nat.

(** Completion of a call: a value, or a thrown error. *)
Inductive completion (A : Type) : Type :=
| Normal (v : A)
| Throw (e : string).
Arguments Normal {A} v.
Arguments Throw {A} e.

(** [x || d] on an optional number: [undefined] and [0] are falsy. *)
Definition or_default (x : option Z) (d : Z) : Z :=
  match x with
  | Some v => if v =? 0 then d else v
  | None => d
  end.

(** [x || d] on an optional string: [undefined] and [""] are falsy. *)
Definition or_default_str (x : option string) (d : string) : string :=
  match x with
  | Some EmptyString => d
  | Some v => v
  | None => d
  end.

End JS.

(** ** Typed arrays and data views *)

Definition bytes := list Z.

(** [new Uint8Array(n)]: [n] zero bytes. *)
Definition u8_new (n : nat) : bytes := repeat 0 n.

(** [arr[i]]: [None] stands for [undefined]. *)
Definition u8_get (arr : bytes) (i : nat) : option Z := nth_error arr i.

(** An operand of a bitwise operator: [undefined] converts to 0. *)
Definition operand (x : option Z) : Z :=
  match x with
  | Some v => v
  | None => 0
  end.

(** [arr[i] = v]: the value is stored modulo 256; a write past the end
    is ignored. *)
Fixpoint u8_put (arr : bytes) (i : nat) (v : Z) : bytes :=
  match arr, i with
  | [], _ => []
  | _ :: tl, O => (v mod 256) :: tl
  | x :: tl, S j => x :: u8_put tl j v
  end.

(** [dst.set(src, off)]: overwrite [dst] from index [off] with [src]. *)
Definition u8_set (dst src : bytes) (off : nat) : bytes :=
  firstn off dst ++ src ++ skipn (off + length src) dst.

(** [view.setUint32(off, v, false)]: big-endian store of [ToUint32 v]. *)
Definition setUint32 (arr : bytes) (off : nat) (v : Z) : bytes :=
  let u := JS.ToUint32 v in
  u8_put (u8_put (u8_put (u8_put arr off (u / 2 ^ 24))
                         (off + 1) (u / 2 ^ 16))
                 (off + 2) (u / 2 ^ 8))
         (off + 3) u.

(** [view.getUint32(off, false)]: big-endian load. *)
Definition getUint32 (arr : bytes) (off : nat) : Z :=
  nth off arr 0 * 2 ^ 24 + nth (off + 1) arr 0 * 2 ^ 16
  + nth (off + 2) arr 0 * 2 ^ 8 + nth (off + 3) arr 0.

(** ** 32-bit helpers of the class *)

(** [rotateLeft(value, amount)] *)
Definition rotateLeft (value amount : Z) : Z :=
  JS.shru (JS.bor (JS.shl value amount) (JS.shru value (32 - amount))) 0.

(** [add32(a, b)] *)
Definition add32 (a b : Z) : Z := JS.shru (a + b) 0.

(** ** SHA-1 *)

Record regs := Regs { ra : Z; rb : Z; rc : Z; rd : Z; re : Z }.

Definition sha1_init : regs :=
  Regs 0x67452301 0xEFCDAB89 0x98BADCFE 0x10325476 0xC3D2E1F0.

(** Pre-processing: the zeroed buffer, the copy of the data, the 0x80
    marker and the 32-bit store of the bit length in the last four bytes. *)
Definition sha1_pad (data : bytes) : bytes :=
  let ml := Z.of_nat (length data) * 8 in
  let paddedData := u8_new (JS.ceil_div (length data + 9) 64 * 64) in
  let paddedData := u8_set paddedData data 0 in
  let paddedData := u8_put paddedData (length data) 0x80 in
  setUint32 paddedData (length paddedData - 4) ml.

(** The message schedule of one chunk: sixteen loaded words, then the
    sixty-four extended ones. *)
Definition sha1_schedule (view : bytes) (chunk : nat) : list Z :=
  let w := map (fun i => getUint32 view (chunk + i * 4)) (seq 0 16) in
  fold_left
    (fun w i =>
       w ++ [rotateLeft
               (JS.bxor (JS.bxor (JS.bxor (nth (i - 3) w 0) (nth (i - 8) w 0))
                                 (nth (i - 14) w 0))
                        (nth (i - 16) w 0)) 1])
    (seq 16 64) w.

(** One of the eighty rounds. *)
Definition sha1_round (w : list Z) (s : regs) (i : nat) : regs :=
  let '(Regs a b c d e) := s in
  let '(f, k) :=
    if (i <? 20)%nat then
      (JS.bor (JS.band b c) (JS.band (JS.bnot b) d), 0x5A827999)
    else if (i <? 40)%nat then
      (JS.bxor (JS.bxor b c) d, 0x6ED9EBA1)
    else if (i <? 60)%nat then
      (JS.bor (JS.bor (JS.band b c) (JS.band b d)) (JS.band c d), 0x8F1BBCDC)
    else
      (JS.bxor (JS.bxor b c) d, 0xCA62C1D6) in
  let temp :=
    add32 (add32 (rotateLeft a 5) f) (add32 (add32 e (nth i w 0)) k) in
  Regs temp a (rotateLeft b 30) c d.

(** The body of the chunk loop. *)
Definition sha1_chunk (view : bytes) (h : regs) (chunk : nat) : regs :=
  let w := sha1_schedule view chunk in
  let s := fold_left (sha1_round w) (seq 0 80) h in
  Regs (add32 (ra h) (ra s)) (add32 (rb h) (rb s)) (add32 (rc h) (rc s))
       (add32 (rd h) (rd s)) (add32 (re h) (re s)).

(** The values [chunk] takes in
    [for (chunk = 0; chunk < paddedData.length; chunk += 64)]. *)
Definition chunk_starts (len : nat) : list nat :=
  map (fun j => (j * 64)%nat) (seq 0 (JS.ceil_div len 64)).

(** [sha1(data)] *)
Definition sha1 (data : bytes) : bytes :=
  let paddedData := sha1_pad data in
  let h :=
    fold_left (sha1_chunk paddedData) (chunk_starts (length paddedData))
              sha1_init in
  fold_left
    (fun result i =>
       setUint32 result (i * 4)
                 (nth i [ra h; rb h; rc h; rd h; re h] 0))
    (seq 0 5) (u8_new 20).

(** ** HMAC *)

Definition blockSize : nat := 64.

(** [hmac(key, data)] *)
Definition hmac (key data : bytes) : bytes :=
  let key := if (blockSize <? length key)%nat then sha1 key else key in
  let key :=
    if (length key <? blockSize)%nat
    then u8_set (u8_new blockSize) key 0
    else key in
  let oKeyPad :=
    map (fun i => JS.bxor (operand (u8_get key i)) 0x5c mod 256)
        (seq 0 blockSize) in
  let iKeyPad :=
    map (fun i => JS.bxor (operand (u8_get key i)) 0x36 mod 256)
        (seq 0 blockSize) in
  let innerData := u8_new (length iKeyPad + length data) in
  let innerData := u8_set innerData iKeyPad 0 in
  let innerData := u8_set innerData data (length iKeyPad) in
  let innerHash := sha1 innerData in
  let outerData := u8_new (length oKeyPad + length innerHash) in
  let outerData := u8_set outerData oKeyPad 0 in
  let outerData := u8_set outerData innerHash (length oKeyPad) in
  sha1 outerData.

(** ** Strings *)

(** The code unit of a character. *)
Definition code (c : ascii) : Z := Z.of_N (N_of_ascii c).

Definition codes (s : string) : list Z := map code (list_ascii_of_string s).

(** The character of a code unit below 256. *)
Definition char_of (u : Z) : ascii := ascii_of_N (Z.to_N u).

Definition string_of_codes (l : list Z) : string :=
  string_of_list_ascii (map char_of l).

(** [String.prototype.toUpperCase] on one Latin-1 code unit, by the
    Unicode case mappings of U+0000..U+00FF: the letters a-z and the
    accented letters move down by 32, U+00B5 and U+00FF map to U+039C and
    U+0178, and U+00DF becomes the two letters SS. *)
Definition toUpperCase_unit (u : Z) : list Z :=
  if (0x61 <=? u) && (u <=? 0x7A) then [u - 32]
  else if u =? 0xB5 then [0x39C]
  else if u =? 0xDF then [0x53; 0x53]
  else if (0xE0 <=? u) && (u <=? 0xFE) && negb (u =? 0xF7) then [u - 32]
  else if u =? 0xFF then [0x178]
  else [u].

(** [s.toUpperCase()], as the list of the code points of the result. *)
Definition toUpperCase (s : string) : list Z :=
  flat_map toUpperCase_unit (codes s).

(** [s.replace(/=+$/, '')]: the longest run of '=' that ends the string
    is removed. *)
Fixpoint strip_padding (s : string) : string :=
  match s with
  | EmptyString => EmptyString
  | String c tl =>
      match strip_padding tl with
      | EmptyString => if (c =? "=")%char then EmptyString
                       else String c EmptyString
      | tl' => String c tl'
      end
  end.

(** [alphabet.indexOf(char)] for a one-character [char]: the first
    position of [char] counted from [from], or -1. *)
Fixpoint indexOf (alphabet : list Z) (char : Z) (from : Z) : Z :=
  match alphabet with
  | [] => -1
  | x :: tl => if x =? char then from else indexOf tl char (from + 1)
  end.

Definition digit_char (d : Z) : ascii := char_of (48 + d).

(** The decimal digits of a non-negative integer, most significant
    first; [fuel] bounds the number of digits. *)
Fixpoint decimal (fuel : nat) (n : Z) : string :=
  match fuel with
  | O => EmptyString
  | S f =>
      if n <? 10 then String (digit_char n) EmptyString
      else (decimal f (n / 10) ++ String (digit_char (n mod 10)) EmptyString)%string
  end.

(** [n.toString()] for an integer [n]. *)
Definition toString (n : Z) : string :=
  if n <? 0
  then String "-" (decimal (S (Z.to_nat (Z.log2 (- n)))) (- n))
  else decimal (S (Z.to_nat (Z.log2 n))) n.

(** [s.padStart(targetLength, pad)] for a one-character [pad]. *)
Definition padStart (s : string) (targetLength : Z) (pad : ascii) : string :=
  (string_of_list_ascii (repeat pad (Z.to_nat targetLength - String.length s))
   ++ s)%string.

(** ** Base32 *)

Definition alphabet : list Z := codes "ABCDEFGHIJKLMNOPQRSTUVWXYZ234567".

(** The state of the decoding loop: [value], [bits] and [decoded]. *)
Definition b32_state : Type := Z * Z * list Z.

(** The body of [for (const char of cleanInput)]. *)
Definition b32_step (st : b32_state) (char : Z) : b32_state :=
  let '(value, bits, decoded) := st in
  let index := indexOf alphabet char 0 in
  if index =? -1 then st
  else
    let value := JS.bor (JS.shl value 5) index in
    let bits := bits + 5 in
    if 8 <=? bits
    then (value, bits - 8,
          decoded ++ [JS.band (JS.shru value (bits - 8)) 255])
    else (value, bits, decoded).

(** [base32Decode(encoded)] *)
Definition base32Decode (encoded : string) : bytes :=
  let cleanInput := toUpperCase (strip_padding encoded) in
  let '(_, _, decoded) := fold_left b32_step cleanInput (0, 0, []) in
  map (fun v => v mod 256) decoded.

(** ** Counters *)

(** [intToBytes(value)] *)
Definition intToBytes (value : Z) : bytes :=
  fst (fold_left
         (fun '(result, value) i =>
            (u8_put result i (JS.band value 0xff), value / 256))
         [7; 6; 5; 4; 3; 2; 1; 0]%nat
         (u8_new 8, value)).

(** ** The class *)

Record TOTP := mkTOTP {
  secret : string;
  digits : Z;
  period : Z;
  algorithm : string
}.

Record options := mkOptions {
  opt_digits : option Z;
  opt_period : option Z;
  opt_algorithm : option string
}.

(** [new TOTP(secret, options)] *)
Definition TOTP_constructor (secret : string) (o : options)
  : JS.completion TOTP :=
  JS.Normal
    (mkTOTP secret
            (JS.or_default (opt_digits o) 6)
            (JS.or_default (opt_period o) 30)
            (JS.or_default_str (opt_algorithm o) "SHA-1")).

(** The dynamic truncation of [generateHOTP]: the offset and the four
    reads of the tag. *)
Definition truncation_offset (hmac : bytes) : Z :=
  JS.band (operand (u8_get hmac (length hmac - 1))) 0x0f.

Definition truncation_reads (hmac : bytes) : list (option Z) :=
  let offset := Z.to_nat (truncation_offset hmac) in
  [u8_get hmac offset; u8_get hmac (offset + 1);
   u8_get hmac (offset + 2); u8_get hmac (offset + 3)].

Definition truncate (hmac : bytes) : Z :=
  let offset := Z.to_nat (truncation_offset hmac) in
  JS.bor
    (JS.bor
       (JS.bor (JS.shl (JS.band (operand (u8_get hmac offset)) 0x7f) 24)
               (JS.shl (JS.band (operand (u8_get hmac (offset + 1))) 0xff) 16))
       (JS.shl (JS.band (operand (u8_get hmac (offset + 2))) 0xff) 8))
    (JS.band (operand (u8_get hmac (offset + 3))) 0xff).

(** The tag [generateHOTP] truncates. *)
Definition hotp_hmac (this : TOTP) (counter : Z) : bytes :=
  let key := base32Decode (secret this) in
  let counterBuffer := intToBytes counter in
  hmac key counterBuffer.

(** [generateHOTP(counter)].  [Math.pow(10, digits)] is the integer
    [10 ^ digits] for [0 <= digits]; a negative [digits] makes it a
    fraction, which this definition does not follow (see [in_scope]). *)
Definition generateHOTP (this : TOTP) (counter : Z) : string :=
  let code := truncate (hotp_hmac this counter) in
  padStart (toString (Z.rem code (10 ^ digits this))) (digits this) "0".

(** [Math.floor(timestamp / 1000 / this.period)], for a non-zero
    [period] (see [in_scope]). *)
Definition currentCounter (this : TOTP) (timestamp : Z) : Z :=
  Qfloor (inject_Z timestamp / inject_Z 1000 / inject_Z (period this))%Q.

(** [generate(timestamp)] *)
Definition generate (this : TOTP) (timestamp : Z) : string :=
  generateHOTP this (currentCounter this timestamp).

(** The loop of [verify], from offset [i]; [fuel] counts the iterations
    that are left. *)
Fixpoint verify_loop (this : TOTP) (token : string) (window : Z)
         (currentCounter : Z) (fuel : nat) (i : Z) : bool :=
  match fuel with
  | O => false
  | S f =>
      if i <=? window then
        let testCounter := currentCounter + i in
        if String.eqb (generateHOTP this testCounter) token then true
        else verify_loop this token window currentCounter f (i + 1)
      else false
  end.

(** [verify(token, window, timestamp)]: the loop runs from [- window] to
    [window], at most [2 * window + 1] times. *)
Definition verify (this : TOTP) (token : string) (window timestamp : Z)
  : bool :=
  verify_loop this token window (currentCounter this timestamp)
              (Z.to_nat (2 * window + 1)) (- window).


Definition hex_digit (n : Z) : ascii :=
  nth (Z.to_nat n) (list_ascii_of_string "0123456789abcdef") "0"%char.

Definition hex (b : bytes) : string :=
  string_of_list_ascii
    (flat_map (fun x => [hex_digit (x / 16); hex_digit (x mod 16)]) b).

Definition ascii_bytes (s : string) : bytes :=
  map (fun c => Z.of_nat (nat_of_ascii c)) (list_ascii_of_string s).

(** ** The algorithms in the words of the specification *)

(** The big-endian serialisation of [x] on [n] bytes: byte [i] is the
    digit of weight [256 ^ (n - 1 - i)]. *)
Definition big_endian (n : nat) (x : Z) : bytes :=
  map (fun i => (x / 256 ^ Z.of_nat (n - 1 - i)) mod 256) (seq 0 n).

(** The number of zero bytes that bring [len + 1] bytes to 56 modulo 64. *)
Definition zero_fill (len : nat) : nat := ((119 - len mod 64) mod 64)%nat.

(** FIPS 180-1 padding: the 0x80 byte, the zero bytes, the bit length
    as a big-endian 64-bit integer. *)
Definition sha1_pad_spec (data : bytes) : bytes :=
  data ++ [0x80] ++ repeat 0 (zero_fill (length data))
       ++ big_endian 8 (8 * Z.of_nat (length data)).

(** The last [n] elements of a list. *)
Definition lastn {A : Type} (n : nat) (l : list A) : list A :=
  skipn (length l - n) l.

(** HMAC as section 4.2 of the specification words it: a key longer
    than a block is replaced by its digest, the key is zero-padded to the
    block, and the tag is SHA1(outerPad || SHA1(innerPad || message)). *)
Definition hmac_spec (key data : bytes) : bytes :=
  let key := if (64 <? length key)%nat then sha1 key else key in
  let key := key ++ repeat 0 (64 - length key) in
  let innerPad := map (fun b => Z.lxor b 0x36) key in
  let outerPad := map (fun b => Z.lxor b 0x5c) key in
  sha1 (outerPad ++ sha1 (innerPad ++ data)).

(** RFC 4226 dynamic truncation of a 20-byte tag. *)
Definition dynamic_truncation (hmac : bytes) : Z :=
  let offset := Z.to_nat (Z.land (nth 19 hmac 0) 0x0F) in
  Z.land (nth offset hmac 0 * 2 ^ 24 + nth (offset + 1) hmac 0 * 2 ^ 16
          + nth (offset + 2) hmac 0 * 2 ^ 8 + nth (offset + 3) hmac 0)
         0x7FFFFFFF.

(** The decimal numeral of [n] on exactly [width] digits: digit [i] is
    the one of weight [10 ^ (width - 1 - i)]. *)
Definition fixed_decimal (width : nat) (n : Z) : string :=
  string_of_list_ascii
    (map (fun i => digit_char ((n / 10 ^ Z.of_nat (width - 1 - i)) mod 10))
         (seq 0 width)).

(** The HOTP value as section 4.4 of the specification words it. *)
Definition generateHOTP_spec (this : TOTP) (counter : Z) : string :=
  let key := base32Decode (secret this) in
  let counterBytes := big_endian 8 counter in
  let hmac := hmac_spec key counterBytes in
  let truncated := dynamic_truncation hmac in
  fixed_decimal (Z.to_nat (digits this)) (truncated mod 10 ^ digits this).

(** The offsets [verify] tries, in the order it tries them. *)
Definition offsets (window : Z) : list Z :=
  map (fun k => - window + Z.of_nat k) (seq 0 (Z.to_nat (2 * window + 1))).

(** Base32 over 5-bit values, with a bit buffer that keeps only the bits
    not yet emitted. *)
Definition b32_spec_step (st : Z * Z * list Z) (v : Z) : Z * Z * list Z :=
  let '(buffer, held, out) := st in
  let buffer := buffer * 32 + v in
  let held := held + 5 in
  if 8 <=? held
  then (buffer mod 2 ^ (held - 8), held - 8, out ++ [buffer / 2 ^ (held - 8)])
  else (buffer, held, out).


(** Membership in the Base32 alphabet, and the value of a member. *)
Definition in_alphabet (c : Z) : bool := negb (indexOf alphabet c 0 =? -1).

Definition b32_value (c : Z) : Z := indexOf alphabet c 0.

(** The instance [new TOTP(secret)] builds with the default options. *)
Definition no_options : options := mkOptions None None None.

Definition default_instance (secret : string) : TOTP :=
  mkTOTP secret 6 30 "SHA-1".

(** The instances the embedding follows.  A negative [digits] makes
    [Math.pow(10, digits)] a fraction, and a zero [period] makes the
    counter an infinity or NaN: neither is an integer computation.  The
    constructor never stores a zero [period]. *)
Definition in_scope (this : TOTP) : Prop :=
  0 <= digits this /\ period this <> 0.

(** A byte value. *)
Definition is_byte (b : Z) : Prop := 0 <= b < 256.

(** The number a big-endian byte sequence denotes. *)
Definition big_endian_value (l : bytes) : Z :=
  fold_left (fun acc b => acc * 256 + b) l 0.

(** The bit buffer the loop state stands for: the low [bits] bits of
    [value]. *)
Definition b32_abs (st : b32_state) : Z * Z * list Z :=
  let '(value, bits, decoded) := st in (value mod 2 ^ bits, bits, decoded).

Definition b32_inv (st : b32_state) : Prop :=
  let '(_, bits, decoded) := st in 0 <= bits < 8 /\ Forall is_byte decoded.

(** The number of bits taken in so far. *)
Definition b32_bits (st : b32_state) : Z :=
  let '(_, bits, decoded) := st in 8 * Z.of_nat (length decoded) + bits.

(** ** Reference definitions for further properties *)

(** Rotation of a 32-bit word to the left by [n] bits: the low
    [32 - n] bits move up, the high [n] bits come back at the bottom. *)
Definition rotl32 (n x : Z) : Z := (x * 2 ^ n) mod 2 ^ 32 + x / 2 ^ (32 - n).

(** The number a decimal numeral denotes. *)
Definition decimal_value (s : string) : Z :=
  fold_left (fun acc c => acc * 10 + (code c - 48)) (list_ascii_of_string s) 0.

(** A decimal digit character. *)
Definition is_digit (c : ascii) : Prop := 48 <= code c <= 57.

(** ASCII lower case of one character, and of a string. *)
Definition ascii_lower (c : ascii) : ascii :=
  if (65 <=? code c) && (code c <=? 90) then char_of (code c + 32) else c.

Fixpoint lower_string (s : string) : string :=
  match s with
  | EmptyString => EmptyString
  | String c tl => String (ascii_lower c) (lower_string tl)
  end.

(** RFC 4648 Base32 encoding, kept as the reference the decoder is meant
    for: the bits of the data, most significant first, are completed with
    zero bits to a multiple of 5, cut into 5-bit groups, each group is
    written with the alphabet, and '=' fills the text to a multiple of 8
    characters. *)
Definition base32_groups (data : bytes) : nat :=
  ((8 * length data + 4) / 5)%nat.

Definition base32_values (data : bytes) : list Z :=
  let m := base32_groups data in
  let pad := Z.of_nat (5 * m - 8 * length data) in
  let number := big_endian_value data * 2 ^ pad in
  map (fun j => (number / 32 ^ Z.of_nat (m - 1 - j)) mod 32) (seq 0 m).

Definition base32Encode (data : bytes) : string :=
  let m := base32_groups data in
  (string_of_codes (map (fun v => nth (Z.to_nat v) alphabet 0)
                        (base32_values data))
   ++ string_of_list_ascii (repeat "="%char ((8 - m mod 8) mod 8)))%string.

(** The number a sequence of 5-bit values denotes. *)
Definition base32_number (values : list Z) : Z :=
  fold_left (fun acc v => acc * 32 + v) values 0.

(** [generateSecret(length)], the [i]-th call of [Math.random()] returning
    [random i].  An index past the alphabet reads [undefined], which the
    concatenation writes out. *)
Definition generateSecret (random : nat -> Q) (length : Z) : string :=
  fold_left
    (fun result i =>
       let index :=
         Qfloor (random i * inject_Z (Z.of_nat (List.length alphabet)))%Q in
       let char :=
         match (if index <? 0 then None
                else nth_error alphabet (Z.to_nat index)) with
         | Some c => String (char_of c) EmptyString
         | None => "undefined"%string
         end in
       (result ++ char)%string)
    (seq 0 (Z.to_nat length)) EmptyString.

(** FIPS 180-1, on 32-bit words taken as numbers below 2^32: the
    round functions and constants, the message schedule, one round, one
    block, and the digest of a message. *)
Definition is_word (x : Z) : Prop := 0 <= x < 2 ^ 32.

(** The registers hold 32-bit words. *)
Definition regs_words (s : regs) : Prop :=
  is_word (ra s) /\ is_word (rb s) /\ is_word (rc s) /\ is_word (rd s)
  /\ is_word (re s).

Definition sha1_f (t : nat) (b c d : Z) : Z :=
  if (t <? 20)%nat then Z.lor (Z.land b c) (Z.land (Z.lxor b 0xFFFFFFFF) d)
  else if (t <? 40)%nat then Z.lxor (Z.lxor b c) d
  else if (t <? 60)%nat then
    Z.lor (Z.lor (Z.land b c) (Z.land b d)) (Z.land c d)
  else Z.lxor (Z.lxor b c) d.

Definition sha1_k (t : nat) : Z :=
  if (t <? 20)%nat then 0x5A827999
  else if (t <? 40)%nat then 0x6ED9EBA1
  else if (t <? 60)%nat then 0x8F1BBCDC
  else 0xCA62C1D6.

Definition sha1_expand (words : list Z) : list Z :=
  fold_left
    (fun w t =>
       w ++ [rotl32 1 (Z.lxor (Z.lxor (Z.lxor (nth (t - 3) w 0)
                                              (nth (t - 8) w 0))
                                      (nth (t - 14) w 0))
                              (nth (t - 16) w 0))])
    (seq 16 64) words.

Definition sha1_step (w : list Z) (s : regs) (t : nat) : regs :=
  Regs ((rotl32 5 (ra s) + sha1_f t (rb s) (rc s) (rd s) + re s
         + nth t w 0 + sha1_k t) mod 2 ^ 32)
       (ra s) (rotl32 30 (rb s)) (rc s) (rd s).

Definition block_words (block : bytes) : list Z :=
  map (fun i => big_endian_value (firstn 4 (skipn (4 * i) block))) (seq 0 16).

Definition sha1_block (h : regs) (block : bytes) : regs :=
  let s := fold_left (sha1_step (sha1_expand (block_words block)))
                     (seq 0 80) h in
  Regs ((ra h + ra s) mod 2 ^ 32) ((rb h + rb s) mod 2 ^ 32)
       ((rc h + rc s) mod 2 ^ 32) ((rd h + rd s) mod 2 ^ 32)
       ((re h + re s) mod 2 ^ 32).

Definition blocks_of (message : bytes) : list bytes :=
  map (fun j => firstn 64 (skipn (64 * j) message))
      (seq 0 (length message / 64)).

Definition sha1_digest (padded : bytes) : bytes :=
  let h := fold_left sha1_block (blocks_of padded) sha1_init in
  big_endian 4 (ra h) ++ big_endian 4 (rb h) ++ big_endian 4 (rc h)
  ++ big_endian 4 (rd h) ++ big_endian 4 (re h).

Definition sha1_spec (data : bytes) : bytes :=
  sha1_digest (sha1_pad_spec data).

(** RFC 2104 HMAC over a hash function [H] with 64-byte blocks. *)
Definition hmac_over (H : bytes -> bytes) (key data : bytes) : bytes :=
  let key := if (64 <? length key)%nat then H key else key in
  let key := key ++ repeat 0 (64 - length key) in
  H (map (fun b => Z.lxor b 0x5c) key
     ++ H (map (fun b => Z.lxor b 0x36) key ++ data)).

(** ** URLs *)

(** UTF-8 of a code point below U+0800: one byte below U+0080, two
    bytes from there on. *)
Definition utf8 (u : Z) : list Z :=
  if u <? 0x80 then [u]
  else [Z.lor 0xC0 (Z.shiftr u 6); Z.lor 0x80 (Z.land u 0x3F)].

Definition upper_hex_digit (n : Z) : ascii :=
  nth (Z.to_nat n) (list_ascii_of_string "0123456789ABCDEF") "0"%char.

(** [%XX] for one byte. *)
Definition percent (b : Z) : string :=
  String "%" (String (upper_hex_digit (b / 16))
                     (String (upper_hex_digit (b mod 16)) EmptyString)).

Definition percent_utf8 (u : Z) : string :=
  fold_right (fun b s => (percent b ++ s)%string) EmptyString (utf8 u).

Definition is_alnum (u : Z) : bool :=
  ((0x30 <=? u) && (u <=? 0x39)) || ((0x41 <=? u) && (u <=? 0x5A))
  || ((0x61 <=? u) && (u <=? 0x7A)).

(** The characters [encodeURIComponent] leaves alone: letters, digits
    and - _ . ! ~ * ' ( ). *)
Definition uri_unreserved (u : Z) : bool :=
  is_alnum u || existsb (Z.eqb u) (codes "-_.!~*'()").

(** [encodeURIComponent(s)] *)
Fixpoint encodeURIComponent (s : string) : string :=
  match s with
  | EmptyString => EmptyString
  | String c tl =>
      let piece :=
        if uri_unreserved (code c) then String c EmptyString
        else percent_utf8 (code c) in
      (piece ++ encodeURIComponent tl)%string
  end.

(** The characters the form serializer of [URLSearchParams] leaves
    alone: letters, digits and * - . _ ; a space becomes +. *)
Definition form_unreserved (u : Z) : bool :=
  is_alnum u || existsb (Z.eqb u) (codes "*-._").

Fixpoint form_encode (s : string) : string :=
  match s with
  | EmptyString => EmptyString
  | String c tl =>
      let piece :=
        if form_unreserved (code c) then String c EmptyString
        else if code c =? 0x20 then String "+" EmptyString
        else percent_utf8 (code c) in
      (piece ++ form_encode tl)%string
  end.

(** [params.toString()] for the entries of a [URLSearchParams]. *)
Fixpoint form_serialize (entries : list (string * string)) : string :=
  match entries with
  | [] => EmptyString
  | (name, value) :: rest =>
      let pair := (form_encode name ++ "=" ++ form_encode value)%string in
      match rest with
      | [] => pair
      | _ => (pair ++ "&" ++ form_serialize rest)%string
      end
  end.

(** The [otpauth] URI [getQRCodeURL] builds. *)
Definition otpauth_uri (this : TOTP) (label : string) (issuer : option string)
  : string :=
  let params :=
    form_serialize
      [("secret"%string, secret this);
       ("issuer"%string, JS.or_default_str issuer "TOTP");
       ("algorithm"%string, algorithm this);
       ("digits"%string, toString (digits this));
       ("period"%string, toString (period this))] in
  ("otpauth://totp/" ++ encodeURIComponent label ++ "?" ++ params)%string.

(** [getQRCodeURL(label, issuer)] *)
Definition getQRCodeURL (this : TOTP) (label : string) (issuer : option string)
  : string :=
  let uri := otpauth_uri this label issuer in
  ("https://api.qrserver.com/v1/create-qr-code/?size=200x200&data="
   ++ encodeURIComponent uri)%string.

(** Percent-decoding, as the receiver of a URL does it. *)
Definition hex_value (c : ascii) : Z :=
  let u := code c in
  if (0x30 <=? u) && (u <=? 0x39) then u - 0x30
  else if (0x41 <=? u) && (u <=? 0x46) then u - 0x41 + 10
  else if (0x61 <=? u) && (u <=? 0x66) then u - 0x61 + 10
  else 0.

Fixpoint percent_decode (s : string) : list Z :=
  match s with
  | EmptyString => []
  | String c tl =>
      match tl with
      | String h (String l rest) =>
          if (c =? "%")%char
          then (hex_value h * 16 + hex_value l) :: percent_decode rest
          else code c :: percent_decode tl
      | _ => code c :: percent_decode tl
      end
  end.

(** The UTF-8 bytes of a string. *)
Definition utf8_bytes (s : string) : list Z := flat_map utf8 (codes s).

(** The characters of an encoded component: unreserved ones and %. *)
Definition url_safe (c : ascii) : bool :=
  uri_unreserved (code c) || (c =? "%")%char.

(** The characters of a serialized form value. *)
Definition form_safe (c : ascii) : bool :=
  form_unreserved (code c) || (c =? "+")%char || (c =? "%")%char.

(** Decoding of a form value: percent-decoding, and + for a space. *)
Fixpoint form_decode (s : string) : list Z :=
  match s with
  | EmptyString => []
  | String c tl =>
      let plain := if (c =? "+")%char then 0x20 else code c in
      match tl with
      | String h (String l rest) =>
          if (c =? "%")%char
          then (hex_value h * 16 + hex_value l) :: form_decode rest
          else plain :: form_decode tl
      | _ => plain :: form_decode tl
      end
  end.

(** The integers [Number.prototype.toString] writes in plain decimal:
    from 10^21 on JS switches to the exponent notation, which [toString]
    above does not follow. *)
Definition plain_number (n : Z) : Prop := Z.abs n < 10 ^ 21.

(** ** Integer primitives *)

Lemma ToUint32_range x : 0 <= JS.ToUint32 x < 2 ^ 32.
Proof. unfold JS.ToUint32. apply Z.mod_pos_bound. lia. Qed.

Lemma ToUint32_id x : 0 <= x < 2 ^ 32 -> JS.ToUint32 x = x.
Proof. intros H. unfold JS.ToUint32. apply Z.mod_small. exact H. Qed.

Lemma ToInt32_range x : - 2 ^ 31 <= JS.ToInt32 x < 2 ^ 31.
Proof.
  unfold JS.ToInt32.
  pose proof (Z.mod_pos_bound (x + 2 ^ 31) (2 ^ 32) ltac:(lia)). lia.
Qed.

Lemma ToInt32_id x : - 2 ^ 31 <= x < 2 ^ 31 -> JS.ToInt32 x = x.
Proof.
  intros H. unfold JS.ToInt32. rewrite Z.mod_small; lia.
Qed.

(** [ToInt32] keeps the low [n] bits, for [n] up to 32. *)
Lemma ToInt32_mod x n : 0 <= n <= 32 -> JS.ToInt32 x mod 2 ^ n = x mod 2 ^ n.
Proof.
  intros Hn. unfold JS.ToInt32.
  rewrite (Z.mod_eq (x + 2 ^ 31) (2 ^ 32)) by lia.
  replace (2 ^ 32) with (2 ^ n * 2 ^ (32 - n))
    by (rewrite <- Z.pow_add_r by lia; f_equal; lia).
  replace (x + 2 ^ 31 - 2 ^ n * 2 ^ (32 - n)
           * ((x + 2 ^ 31) / (2 ^ n * 2 ^ (32 - n))) - 2 ^ 31)
    with (x + (- (2 ^ (32 - n) * ((x + 2 ^ 31) / (2 ^ n * 2 ^ (32 - n)))))
              * 2 ^ n) by ring.
  apply Z.mod_add. apply Z.pow_nonzero; lia.
Qed.

Lemma ToUint32_mod x n : 0 <= n <= 32 -> JS.ToUint32 x mod 2 ^ n = x mod 2 ^ n.
Proof.
  intros Hn. unfold JS.ToUint32.
  replace (2 ^ 32) with (2 ^ n * 2 ^ (32 - n))
    by (rewrite <- Z.pow_add_r by lia; f_equal; lia).
  rewrite Z.rem_mul_r by (try apply Z.pow_nonzero; try apply Z.pow_pos_nonneg; lia).
  rewrite Z.mul_comm, Z.mod_add by (apply Z.pow_nonzero; lia).
  apply Z.mod_mod. apply Z.pow_nonzero; lia.
Qed.

(** [x & (2^n - 1)] is [x mod 2^n]. *)
Lemma band_ones x n : 0 <= n < 32 -> JS.band x (2 ^ n - 1) = x mod 2 ^ n.
Proof.
  intros Hn. unfold JS.band.
  assert (Hp : 0 < 2 ^ n < 2 ^ 32).
  { split; [apply Z.pow_pos_nonneg; lia|apply Z.pow_lt_mono_r; lia]. }
  assert (Hq : 2 ^ n <= 2 ^ 31) by (apply Z.pow_le_mono_r; lia).
  rewrite (ToInt32_id (2 ^ n - 1)) by lia.
  replace (2 ^ n - 1) with (Z.ones n) by (rewrite Z.ones_equiv; lia).
  rewrite Z.land_ones by lia.
  apply ToInt32_mod. lia.
Qed.

Lemma band_0x0f x : JS.band x 0x0f = x mod 16.
Proof. exact (band_ones x 4 ltac:(lia)). Qed.

Lemma band_0x7f x : JS.band x 0x7f = x mod 128.
Proof. exact (band_ones x 7 ltac:(lia)). Qed.

Lemma band_0xff x : JS.band x 0xff = x mod 256.
Proof. exact (band_ones x 8 ltac:(lia)). Qed.

(** [a | b] adds when [a] is a multiple of [2^k] and [b] is below it. *)
Lemma lor_disjoint a b k :
  0 <= k -> 0 <= b < 2 ^ k -> Z.lor (a * 2 ^ k) b = a * 2 ^ k + b.
Proof.
  intros Hk Hb.
  assert (Hl : Z.land (a * 2 ^ k) b = 0).
  { apply Z.bits_inj'. intros n Hn.
    rewrite Z.land_spec, Z.bits_0.
    destruct (Z.lt_ge_cases n k) as [Hlt|Hge].
    - rewrite Z.mul_pow2_bits_low by lia. reflexivity.
    - rewrite <- (Z.mod_small b (2 ^ k)) by lia.
      rewrite Z.mod_pow2_bits_high by lia. apply andb_false_r. }
  rewrite Z.add_nocarry_lxor by exact Hl.
  symmetry. apply Z.lxor_lor. exact Hl.
Qed.

(** [a << n] of a small non-negative [a] is a multiplication. *)
Lemma shl_small a n :
  0 <= n < 32 -> 0 <= a -> a * 2 ^ n < 2 ^ 31 -> JS.shl a n = a * 2 ^ n.
Proof.
  intros Hn Ha Hlt. unfold JS.shl.
  assert (Hp : 1 <= 2 ^ n) by (pose proof (Z.pow_pos_nonneg 2 n); lia).
  assert (Ha' : a < 2 ^ 31) by nia.
  rewrite (ToUint32_id n) by lia.
  rewrite (Z.mod_small n 32) by lia.
  rewrite (ToInt32_id a) by lia.
  rewrite Z.shiftl_mul_pow2 by lia.
  apply ToInt32_id. nia.
Qed.

Lemma bor_small a b :
  - 2 ^ 31 <= a < 2 ^ 31 -> - 2 ^ 31 <= b < 2 ^ 31 -> JS.bor a b = Z.lor a b.
Proof.
  intros Ha Hb. unfold JS.bor. rewrite !ToInt32_id by assumption. reflexivity.
Qed.

(** ** Typed arrays *)

Lemma length_u8_new n : length (u8_new n) = n.
Proof. apply repeat_length. Qed.

Lemma length_u8_put arr i v : length (u8_put arr i v) = length arr.
Proof.
  revert i. induction arr as [|x tl IH]; intros [|j]; simpl; auto.
Qed.

Lemma length_setUint32 arr off v : length (setUint32 arr off v) = length arr.
Proof. unfold setUint32. rewrite !length_u8_put. reflexivity. Qed.

Lemma u8_new_bytes n : Forall is_byte (u8_new n).
Proof.
  unfold u8_new. induction n; simpl; constructor; auto. unfold is_byte; lia.
Qed.

Lemma u8_put_bytes arr i v : Forall is_byte arr -> Forall is_byte (u8_put arr i v).
Proof.
  revert i. induction arr as [|x tl IH]; intros i H; [destruct i; exact H|].
  inversion H; subst. destruct i as [|j]; simpl; constructor; auto.
  unfold is_byte. apply Z.mod_pos_bound. lia.
Qed.

Lemma setUint32_bytes arr off v :
  Forall is_byte arr -> Forall is_byte (setUint32 arr off v).
Proof. intros H. unfold setUint32. auto using u8_put_bytes. Qed.

Lemma operand_get arr i : operand (u8_get arr i) = nth i arr 0.
Proof.
  unfold operand, u8_get. revert i.
  induction arr as [|x tl IH]; intros [|j]; simpl; auto.
Qed.

Lemma u8_get_some arr i : (i < length arr)%nat -> exists b, u8_get arr i = Some b.
Proof.
  intros H. unfold u8_get.
  destruct (nth_error arr i) eqn:E; [eauto|].
  apply nth_error_None in E. lia.
Qed.

Lemma nth_bytes arr i : Forall is_byte arr -> is_byte (nth i arr 0).
Proof.
  intros H. revert i. induction H as [|x tl Hx _ IH]; intros [|j]; simpl;
    try (unfold is_byte; lia); auto.
Qed.

(** A write loop over a typed array keeps its length and its bytes. *)
Lemma fold_setUint32_length (f g : nat -> _) l init :
  length (fold_left (fun r i => setUint32 r (g i) (f i)) l init) = length init.
Proof.
  revert init. induction l as [|i l IH]; intros init; simpl; [reflexivity|].
  rewrite IH. apply length_setUint32.
Qed.

Lemma fold_setUint32_bytes (f g : nat -> _) l init :
  Forall is_byte init ->
  Forall is_byte (fold_left (fun r i => setUint32 r (g i) (f i)) l init).
Proof.
  revert init. induction l as [|i l IH]; intros init H; simpl; [exact H|].
  apply IH. apply setUint32_bytes. exact H.
Qed.

(** ** The digest and the tag are 20 bytes *)

Lemma sha1_length data : length (sha1 data) = 20%nat.
Proof.
  unfold sha1.
  rewrite (fold_setUint32_length
             (fun i => nth i _ 0) (fun i => (i * 4)%nat)).
  apply length_u8_new.
Qed.

Lemma sha1_bytes data : Forall is_byte (sha1 data).
Proof.
  unfold sha1.
  apply (fold_setUint32_bytes (fun i => nth i _ 0) (fun i => (i * 4)%nat)).
  apply u8_new_bytes.
Qed.

Lemma hmac_length key data : length (hmac key data) = 20%nat.
Proof. unfold hmac. apply sha1_length. Qed.

Lemma hmac_bytes key data : Forall is_byte (hmac key data).
Proof. unfold hmac. apply sha1_bytes. Qed.

Lemma truncation_offset_mod tag :
  length tag = 20%nat -> truncation_offset tag = nth 19 tag 0 mod 16.
Proof.
  intros H. unfold truncation_offset. rewrite H.
  change (20 - 1)%nat with 19%nat.
  rewrite operand_get. apply band_0x0f.
Qed.

Lemma truncation_offset_range tag : 0 <= truncation_offset tag <= 15.
Proof.
  unfold truncation_offset. rewrite band_0x0f.
  pose proof (Z.mod_pos_bound (operand (u8_get tag (length tag - 1))) 16).
  lia.
Qed.

(** ** SHA-1 padding *)

Lemma skipn_repeat {A : Type} (x : A) n m : skipn n (repeat x m) = repeat x (m - n).
Proof.
  revert m. induction n as [|n IH]; intros [|m]; simpl; auto.
Qed.

Lemma u8_set_new data n :
  u8_set (u8_new n) data 0 = data ++ repeat 0 (n - length data).
Proof.
  unfold u8_set, u8_new. simpl. rewrite skipn_repeat. reflexivity.
Qed.

Lemma u8_put_app_r l1 l2 i v :
  u8_put (l1 ++ l2) (length l1 + i) v = l1 ++ u8_put l2 i v.
Proof.
  induction l1 as [|x l1 IH]; simpl; [reflexivity|]. now rewrite IH.
Qed.

Lemma u8_put_app_len l1 l2 v :
  u8_put (l1 ++ l2) (length l1) v = l1 ++ u8_put l2 0 v.
Proof.
  rewrite <- (Nat.add_0_r (length l1)). apply u8_put_app_r.
Qed.

(** The size of the padded buffer. *)
Lemma padded_size n :
  (JS.ceil_div (n + 9) 64 * 64 = n + 9 + zero_fill n)%nat.
Proof.
  unfold JS.ceil_div, zero_fill.
  pose proof (Nat.div_mod_eq (n + 9 + (64 - 1)) 64) as H1.
  pose proof (Nat.mod_upper_bound (n + 9 + (64 - 1)) 64 ltac:(lia)) as H2.
  pose proof (Nat.div_mod_eq n 64) as H3.
  pose proof (Nat.mod_upper_bound n 64 ltac:(lia)) as H4.
  pose proof (Nat.div_mod_eq (119 - n mod 64) 64) as H5.
  pose proof (Nat.mod_upper_bound (119 - n mod 64) 64 ltac:(lia)) as H6.
  lia.
Qed.

Lemma zero_fill_spec n :
  (zero_fill n < 64)%nat /\ ((n + 1 + zero_fill n) mod 64 = 56)%nat.
Proof.
  pose proof (padded_size n) as H.
  split; [unfold zero_fill; apply Nat.mod_upper_bound; lia|].
  replace (n + 1 + zero_fill n)%nat
    with (56 + (JS.ceil_div (n + 9) 64 - 1) * 64)%nat.
  - rewrite Nat.Div0.mod_add. reflexivity.
  - assert (0 < JS.ceil_div (n + 9) 64)%nat by lia. lia.
Qed.

(** What the source's pre-processing builds, for every input: the
    data, 0x80, the zero fill, four more zero bytes, and the low 32 bits
    of the bit length. *)
Lemma sha1_pad_shape data :
  sha1_pad data
  = data ++ [0x80] ++ repeat 0 (zero_fill (length data))
         ++ [0; 0; 0; 0]
         ++ big_endian 4 (JS.ToUint32 (Z.of_nat (length data) * 8)).
Proof.
  unfold sha1_pad.
  rewrite u8_set_new, padded_size.
  set (n := length data). set (z := zero_fill n).
  set (u := JS.ToUint32 (Z.of_nat n * 8)).
  replace (n + 9 + z - n)%nat with (S (z + 8)) by lia.
  cbn [repeat].
  replace (u8_put (data ++ 0 :: repeat 0 (z + 8)) n 128)
    with (data ++ 128 :: repeat 0 (z + 8))
    by (unfold n; rewrite u8_put_app_len; reflexivity).
  rewrite length_app. cbn [length]. rewrite repeat_length. fold n.
  replace (n + S (z + 8) - 4)%nat with (n + S (z + 4))%nat by lia.
  rewrite repeat_app. cbn [repeat].
  replace (data ++ 128 :: repeat 0 z ++ [0; 0; 0; 0; 0; 0; 0; 0])
    with ((data ++ 128 :: repeat 0 z ++ [0; 0; 0; 0]) ++ [0; 0; 0; 0])
    by (rewrite <- !app_assoc; cbn [app]; rewrite <- !app_assoc; reflexivity).
  assert (Hlen : length (data ++ 128 :: repeat 0 z ++ [0; 0; 0; 0])
                 = (n + S (z + 4))%nat).
  { rewrite length_app. cbn [length]. rewrite length_app, repeat_length.
    reflexivity. }
  rewrite <- Hlen.
  unfold setUint32. fold u.
  set (P := data ++ 128 :: repeat 0 z ++ [0; 0; 0; 0]).
  rewrite u8_put_app_len, !u8_put_app_r.
  cbn [u8_put].
  unfold P, big_endian. cbn [seq map Nat.sub].
  rewrite <- !app_assoc. cbn [app]. rewrite <- !app_assoc. cbn [app].
  change (256 ^ Z.of_nat 3) with (2 ^ 24).
  change (256 ^ Z.of_nat 2) with (2 ^ 16).
  change (256 ^ Z.of_nat 1) with (2 ^ 8).
  change (256 ^ Z.of_nat 0) with 1. rewrite Z.div_1_r.
  reflexivity.
Qed.

Lemma lastn_app {A : Type} (l1 l2 : list A) : lastn (length l2) (l1 ++ l2) = l2.
Proof.
  unfold lastn. rewrite length_app.
  replace (length l1 + length l2 - length l2)%nat with (length l1 + 0)%nat by lia.
  rewrite skipn_app, Nat.add_0_r, skipn_all.
  replace (length l1 - length l1)%nat with 0%nat by lia. reflexivity.
Qed.

(** The last eight bytes of the padded message, for every input. *)
Lemma sha1_pad_tail data :
  lastn 8 (sha1_pad data)
  = [0; 0; 0; 0] ++ big_endian 4 (JS.ToUint32 (Z.of_nat (length data) * 8)).
Proof.
  rewrite sha1_pad_shape.
  rewrite !app_assoc. rewrite <- app_assoc.
  set (t := [0; 0; 0; 0] ++ big_endian 4 _).
  change 8%nat with (length t).
  apply lastn_app.
Qed.

Lemma sha1_pad_length data :
  length (sha1_pad data) = (JS.ceil_div (length data + 9) 64 * 64)%nat.
Proof.
  unfold sha1_pad. rewrite length_setUint32, length_u8_put.
  unfold u8_set. cbn [firstn app Nat.add].
  rewrite length_app, length_skipn, length_u8_new.
  pose proof (padded_size (length data)). lia.
Qed.

Lemma big_endian_8_low x :
  0 <= x < 2 ^ 32 -> big_endian 8 x = [0; 0; 0; 0] ++ big_endian 4 x.
Proof.
  intros Hx. unfold big_endian. cbn [seq map Nat.sub app].
  change (256 ^ Z.of_nat 7) with (2 ^ 56).
  change (256 ^ Z.of_nat 6) with (2 ^ 48).
  change (256 ^ Z.of_nat 5) with (2 ^ 40).
  change (256 ^ Z.of_nat 4) with (2 ^ 32).
  rewrite !(Z.div_small x) by lia.
  reflexivity.
Qed.

(** Every word load of the chunk loop lies inside the padded buffer. *)
Lemma sha1_loads_in_bounds data chunk i :
  In chunk (chunk_starts (length (sha1_pad data))) -> (i < 16)%nat ->
  (chunk + i * 4 + 3 < length (sha1_pad data))%nat.
Proof.
  unfold chunk_starts. rewrite sha1_pad_length.
  intros Hin Hi. apply in_map_iff in Hin. destruct Hin as [j [<- Hj]].
  apply in_seq in Hj.
  set (q := JS.ceil_div (length data + 9) 64) in *.
  assert (E : JS.ceil_div (q * 64) 64 = q).
  { unfold JS.ceil_div.
    replace (q * 64 + (64 - 1))%nat with (63 + q * 64)%nat by lia.
    rewrite Nat.div_add by lia. reflexivity. }
  rewrite E in Hj. nia.
Qed.

(** Below 2^29 bytes the pre-processing is the FIPS 180-1 padding. *)
Lemma sha1_pad_short data :
  Z.of_nat (length data) < 2 ^ 29 ->
  sha1_pad data = sha1_pad_spec data
  /\ (length (sha1_pad data) mod 64 = 0)%nat
  /\ lastn 8 (sha1_pad data) = big_endian 8 (8 * Z.of_nat (length data)).
Proof.
  intros Hlen.
  assert (Hu : JS.ToUint32 (Z.of_nat (length data) * 8)
               = 8 * Z.of_nat (length data)).
  { rewrite ToUint32_id by lia. lia. }
  split; [|split].
  - rewrite sha1_pad_shape. unfold sha1_pad_spec.
    rewrite Hu, big_endian_8_low by lia. reflexivity.
  - rewrite sha1_pad_length. apply Nat.Div0.mod_mul.
  - rewrite sha1_pad_tail, Hu, big_endian_8_low by lia. reflexivity.
Qed.

(** C5, where the length field fails: on 2^29 zero bytes (2^32 bits)
    the last eight bytes of the padded message are all zero, while the
    64-bit big-endian bit length is 00 00 00 01 00 00 00 00. *)
Theorem sha1_pad_length_field_wraps :
  lastn 8 (sha1_pad (u8_new (2 ^ 29))) = [0; 0; 0; 0; 0; 0; 0; 0]
  /\ big_endian 8 (8 * Z.of_nat (length (u8_new (2 ^ 29))))
     = [0; 0; 0; 1; 0; 0; 0; 0]
  /\ (length (sha1_pad (u8_new (2 ^ 29))) mod 64 = 0)%nat.
Proof.
  rewrite sha1_pad_tail, sha1_pad_length, length_u8_new, Nat2Z.inj_pow.
  split; [reflexivity|].
  split; [reflexivity|].
  apply Nat.Div0.mod_mul.
Qed.

(** ** HMAC *)

Lemma lxor_byte a b : is_byte a -> is_byte b -> is_byte (Z.lxor a b).
Proof.
  unfold is_byte. intros Ha Hb.
  assert (Hn : 0 <= Z.lxor a b) by (apply Z.lxor_nonneg; lia).
  split; [exact Hn|].
  destruct (Z.eq_dec (Z.lxor a b) 0) as [->|Hz]; [lia|].
  change 256 with (2 ^ 8). apply Z.log2_lt_pow2; [lia|].
  pose proof (Z.log2_lxor a b ltac:(lia) ltac:(lia)) as Hl.
  assert (Hla : Z.log2 a < 8).
  { destruct (Z.eq_dec a 0) as [->|]; [reflexivity|].
    apply Z.log2_lt_pow2; lia. }
  assert (Hlb : Z.log2 b < 8).
  { destruct (Z.eq_dec b 0) as [->|]; [reflexivity|].
    apply Z.log2_lt_pow2; lia. }
  lia.
Qed.

Lemma bxor_byte a m : is_byte a -> is_byte m -> JS.bxor a m mod 256 = Z.lxor a m.
Proof.
  intros Ha Hm. pose proof (lxor_byte a m Ha Hm) as Hx.
  unfold is_byte in *. unfold JS.bxor.
  rewrite !ToInt32_id by lia. apply Z.mod_small. exact Hx.
Qed.

Lemma map_seq_nth {B : Type} (f : Z -> B) l :
  map (fun i => f (nth i l 0)) (seq 0 (length l)) = map f l.
Proof.
  induction l as [|x l IH]; [reflexivity|].
  cbn [length seq map nth]. f_equal.
  rewrite <- seq_shift, map_map. exact IH.
Qed.

(** Copying [src] to the start of a zeroed buffer, and filling a buffer
    with two pieces. *)
Lemma u8_set_concat a b :
  u8_set (u8_set (u8_new (length a + length b)) a 0) b (length a) = a ++ b.
Proof.
  rewrite u8_set_new. unfold u8_set.
  replace (length a + length b - length a)%nat with (length b) by lia.
  rewrite firstn_app, firstn_all, Nat.sub_diag. cbn [firstn].
  rewrite app_nil_r, skipn_app.
  rewrite skipn_all2 by lia.
  replace (length a + length b - length a)%nat with (length b) by lia.
  rewrite skipn_all2 by (rewrite repeat_length; lia).
  rewrite app_nil_r. reflexivity.
Qed.

(** The source's [hmac] is the specification's HMAC. *)
Lemma hmac_refines key data :
  Forall is_byte key -> hmac key data = hmac_spec key data.
Proof.
  intros Hkey. unfold hmac, hmac_spec, blockSize.
  set (key1 := if (64 <? length key)%nat then sha1 key else key).
  assert (Hb1 : Forall is_byte key1).
  { unfold key1. destruct (64 <? length key)%nat; [apply sha1_bytes|exact Hkey]. }
  assert (Hl1 : (length key1 <= 64)%nat).
  { unfold key1. destruct (Nat.ltb_spec 64 (length key)); [|lia].
    rewrite sha1_length. lia. }
  set (key2 := if (length key1 <? 64)%nat then u8_set (u8_new 64) key1 0
               else key1).
  assert (E2 : key2 = key1 ++ repeat 0 (64 - length key1)).
  { unfold key2. destruct (Nat.ltb_spec (length key1) 64).
    - apply u8_set_new.
    - replace (64 - length key1)%nat with 0%nat by lia.
      cbn [repeat]. rewrite app_nil_r. reflexivity. }
  assert (Hl2 : length key2 = 64%nat).
  { rewrite E2, length_app, repeat_length. lia. }
  assert (Hb2 : Forall is_byte key2).
  { rewrite E2. apply Forall_app. split; [exact Hb1|].
    apply (u8_new_bytes (64 - length key1)). }
  assert (Hpad : forall m, is_byte m ->
            map (fun i => JS.bxor (operand (u8_get key2 i)) m mod 256) (seq 0 64)
            = map (fun b => Z.lxor b m) key2).
  { intros m Hm. rewrite <- Hl2.
    rewrite <- (map_seq_nth (fun b => Z.lxor b m) key2).
    apply map_ext. intros i. rewrite operand_get.
    apply bxor_byte; [apply nth_bytes; exact Hb2|exact Hm]. }
  rewrite !Hpad by (unfold is_byte; lia).
  rewrite <- E2.
  rewrite !u8_set_concat. reflexivity.
Qed.

(** RFC 2202, test case 1. *)
Example hmac_rfc2202_case_1 :
  hex (hmac (repeat 0x0b 20) (ascii_bytes "Hi There"))
  = "b617318655057264e28bc0b6fb378c8ef146be00"%string.
Proof. vm_compute. reflexivity. Qed.

(** ** Base32 *)

Lemma indexOf_range l c from :
  indexOf l c from = -1 \/ from <= indexOf l c from < from + Z.of_nat (length l).
Proof.
  revert from. induction l as [|x l IH]; intros from; [left; reflexivity|].
  cbn [indexOf length]. destruct (x =? c); [right; lia|].
  destruct (IH (from + 1)) as [H|H]; [left; exact H|right; lia].
Qed.

Lemma b32_value_range c : in_alphabet c = true -> 0 <= b32_value c < 32.
Proof.
  unfold in_alphabet, b32_value. intros H.
  apply negb_true_iff, Z.eqb_neq in H.
  destruct (indexOf_range alphabet c 0) as [E|E]; [contradiction|].
  change (Z.of_nat (length alphabet)) with 32 in E. lia.
Qed.

Lemma b32_step_skip st c : in_alphabet c = false -> b32_step st c = st.
Proof.
  unfold in_alphabet. intros H. apply negb_false_iff in H.
  destruct st as [[value bits] decoded]. unfold b32_step. rewrite H. reflexivity.
Qed.

(** Skipped characters leave no trace. *)
Lemma b32_fold_filter l :
  forall st,
    fold_left b32_step l st = fold_left b32_step (filter in_alphabet l) st.
Proof.
  induction l as [|c l IH]; intros st; [reflexivity|].
  cbn [fold_left filter]. destruct (in_alphabet c) eqn:E.
  - cbn [fold_left]. apply IH.
  - rewrite (b32_step_skip st c E). apply IH.
Qed.

Lemma mod_mod_pow2 x a b : 0 <= a <= b -> (x mod 2 ^ b) mod 2 ^ a = x mod 2 ^ a.
Proof.
  intros H.
  replace (2 ^ b) with (2 ^ a * 2 ^ (b - a))
    by (rewrite <- Z.pow_add_r by lia; f_equal; lia).
  assert (0 < 2 ^ a) by (apply Z.pow_pos_nonneg; lia).
  assert (0 < 2 ^ (b - a)) by (apply Z.pow_pos_nonneg; lia).
  rewrite Z.rem_mul_r by lia.
  rewrite Z.mul_comm, Z.mod_add by lia.
  apply Z.mod_mod. lia.
Qed.

Lemma div_mod_pow2 x s n :
  0 <= s -> 0 <= n -> (x / 2 ^ s) mod 2 ^ n = (x mod 2 ^ (s + n)) / 2 ^ s.
Proof.
  intros Hs Hn.
  assert (0 < 2 ^ s) by (apply Z.pow_pos_nonneg; lia).
  assert (0 < 2 ^ n) by (apply Z.pow_pos_nonneg; lia).
  rewrite Z.pow_add_r by lia.
  rewrite Z.rem_mul_r by lia.
  rewrite (Z.mul_comm (2 ^ s)), Z.div_add by lia.
  rewrite (Z.div_small (x mod 2 ^ s)) by (apply Z.mod_pos_bound; lia).
  reflexivity.
Qed.

(** The low bits of [(value << 5) | index]. *)
Lemma shl5_bor_low value index m :
  5 <= m <= 32 -> 0 <= index < 32 ->
  JS.bor (JS.shl value 5) index mod 2 ^ m = value mod 2 ^ (m - 5) * 32 + index.
Proof.
  intros Hm Hi. unfold JS.bor, JS.shl.
  change (JS.ToUint32 5 mod 32) with 5.
  rewrite (ToInt32_id index) by lia.
  assert (Hp : 32 <= 2 ^ m).
  { change 32 with (2 ^ 5). apply Z.pow_le_mono_r; lia. }
  assert (Hq : 0 < 2 ^ (m - 5)) by (apply Z.pow_pos_nonneg; lia).
  rewrite <- Z.land_ones, Z.land_lor_distr_l, !Z.land_ones by lia.
  rewrite (Z.mod_small index) by lia.
  rewrite !ToInt32_mod by lia.
  rewrite Z.shiftl_mul_pow2 by lia.
  replace (2 ^ m) with (2 ^ (m - 5) * 2 ^ 5)
    by (rewrite <- Z.pow_add_r by lia; f_equal; lia).
  rewrite Z.mul_mod_distr_r by lia.
  rewrite ToInt32_mod by lia.
  rewrite lor_disjoint by lia.
  reflexivity.
Qed.

(** The emitted byte: the top eight bits of the buffer. *)
Lemma emitted_byte value s :
  0 <= s <= 24 ->
  JS.band (JS.shru value s) 255 = (value mod 2 ^ (s + 8)) / 2 ^ s.
Proof.
  intros Hs. change 255 with 0xff. rewrite band_0xff. unfold JS.shru.
  rewrite (ToUint32_id s), (Z.mod_small s 32) by lia.
  rewrite Z.shiftr_div_pow2 by lia.
  change 256 with (2 ^ 8).
  rewrite div_mod_pow2 by lia.
  rewrite ToUint32_mod by lia. reflexivity.
Qed.

(** One step of the source's loop on an alphabet character is one step
    of the bit buffer. *)
Lemma b32_step_refines st c :
  b32_inv st -> in_alphabet c = true ->
  b32_spec_step (b32_abs st) (b32_value c) = b32_abs (b32_step st c)
  /\ b32_inv (b32_step st c)
  /\ b32_bits (b32_step st c) = b32_bits st + 5.
Proof.
  destruct st as [[value bits] decoded]. intros [Hb Hd] Hc.
  pose proof (b32_value_range c Hc) as Hv.
  unfold b32_step, b32_spec_step, b32_abs.
  fold (b32_value c).
  assert (Hne : (b32_value c =? -1) = false) by (apply Z.eqb_neq; lia).
  rewrite Hne.
  set (value1 := JS.bor (JS.shl value 5) (b32_value c)).
  assert (Hlow : value1 mod 2 ^ (bits + 5)
                 = value mod 2 ^ bits * 32 + b32_value c).
  { unfold value1. rewrite shl5_bor_low by lia.
    replace (bits + 5 - 5) with bits by lia. reflexivity. }
  rewrite <- Hlow.
  destruct (Z.leb_spec 8 (bits + 5)) as [Hge|Hlt].
  - rewrite mod_mod_pow2 by lia.
    rewrite emitted_byte by lia.
    replace (bits + 5 - 8 + 8) with (bits + 5) by lia.
    split; [reflexivity|]. split.
    + split; [lia|]. apply Forall_app. split; [exact Hd|].
      constructor; [|constructor]. unfold is_byte.
      assert (0 < 2 ^ (bits + 5 - 8)) by (apply Z.pow_pos_nonneg; lia).
      pose proof (Z.mod_pos_bound value1 (2 ^ (bits + 5)) ltac:(apply Z.pow_pos_nonneg; lia)) as Hm.
      split; [apply Z.div_pos; lia|].
      apply Z.div_lt_upper_bound; [lia|].
      replace (2 ^ (bits + 5 - 8) * 256) with (2 ^ (bits + 5)); [lia|].
      change 256 with (2 ^ 8). rewrite <- Z.pow_add_r by lia. f_equal. lia.
    + unfold b32_bits. rewrite length_app. cbn [length]. lia.
  - split; [reflexivity|]. split; [split; [lia|exact Hd]|].
    unfold b32_bits. lia.
Qed.

Lemma b32_fold_refines valid :
  Forall (fun c => in_alphabet c = true) valid ->
  forall st,
    b32_inv st ->
    fold_left b32_spec_step (map b32_value valid) (b32_abs st)
    = b32_abs (fold_left b32_step valid st)
    /\ b32_inv (fold_left b32_step valid st)
    /\ b32_bits (fold_left b32_step valid st)
       = b32_bits st + 5 * Z.of_nat (length valid).
Proof.
  induction 1 as [|c valid Hc _ IH]; intros st Hst.
  - cbn [fold_left map length]. split; [reflexivity|]. split; [exact Hst|lia].
  - cbn [fold_left map].
    destruct (b32_step_refines st c Hst Hc) as [E [Hinv Hbits]].
    rewrite E.
    destruct (IH (b32_step st c) Hinv) as [E' [Hinv' Hbits']].
    split; [exact E'|]. split; [exact Hinv'|].
    rewrite Hbits', Hbits. cbn [length]. lia.
Qed.

Lemma map_mod_bytes l : Forall is_byte l -> map (fun v => v mod 256) l = l.
Proof.
  induction 1 as [|x l Hx _ IH]; [reflexivity|].
  cbn [map]. rewrite IH, Z.mod_small by exact Hx. reflexivity.
Qed.

Lemma base32Decode_fold encoded :
  base32Decode encoded
  = map (fun v => v mod 256)
        (snd (fold_left b32_step (toUpperCase (strip_padding encoded))
                        (0, 0, []))).
Proof.
  unfold base32Decode.
  destruct (fold_left b32_step _ _) as [[value bits] decoded]. reflexivity.
Qed.

Lemma filter_valid l : Forall (fun c => in_alphabet c = true) (filter in_alphabet l).
Proof.
  apply Forall_forall. intros c Hc. apply filter_In in Hc. tauto.
Qed.


Lemma indexOf_In l c from : indexOf l c from <> -1 -> In c l.
Proof.
  revert from. induction l as [|x l IH]; intros from H; [contradiction|].
  cbn [indexOf] in H. destruct (Z.eqb_spec x c) as [->|_]; [left; reflexivity|].
  right. exact (IH _ H).
Qed.

Lemma in_alphabet_In c : in_alphabet c = true -> In c alphabet.
Proof.
  unfold in_alphabet. intros H. apply negb_true_iff, Z.eqb_neq in H.
  exact (indexOf_In _ _ _ H).
Qed.

(** The alphabet's characters are their own upper case, are code units,
    and none is '='. *)
Lemma alphabet_chars c :
  In c alphabet ->
  toUpperCase_unit c = [c] /\ code (char_of c) = c /\ char_of c <> "="%char.
Proof.
  intros H. cbv in H.
  repeat (destruct H as [<- | H];
          [split; [reflexivity|split; [reflexivity|discriminate]]|]).
  contradiction.
Qed.

Lemma strip_padding_id s :
  Forall (fun c => c <> "="%char) (list_ascii_of_string s) -> strip_padding s = s.
Proof.
  induction s as [|c tl IH]; intros H; [reflexivity|].
  cbn [list_ascii_of_string] in H. inversion H as [|? ? Hc Htl]; subst.
  cbn [strip_padding]. rewrite (IH Htl).
  destruct tl; [|reflexivity].
  destruct (Ascii.eqb_spec c "="%char); [contradiction|reflexivity].
Qed.

(** [strip_padding] removes a run of '=' from the end ... *)
Lemma strip_padding_run s :
  exists k,
    s = (strip_padding s ++ string_of_list_ascii (repeat "="%char k))%string.
Proof.
  induction s as [|c tl [k IH]]; [exists 0%nat; reflexivity|].
  cbn [strip_padding].
  destruct (strip_padding tl) as [|d r] eqn:E.
  - destruct (Ascii.eqb_spec c "="%char) as [->|_].
    + exists (S k). cbn [repeat string_of_list_ascii String.append].
      f_equal. exact IH.
    + exists k. cbn [String.append]. f_equal. exact IH.
  - exists k. cbn [String.append]. f_equal. exact IH.
Qed.


Lemma toUpperCase_string_of_codes l :
  Forall (fun c => in_alphabet c = true) l ->
  toUpperCase (string_of_codes l) = l
  /\ Forall (fun c => c <> "="%char) (list_ascii_of_string (string_of_codes l)).
Proof.
  unfold toUpperCase, string_of_codes, codes.
  rewrite list_ascii_of_string_of_list_ascii.
  induction 1 as [|c l Hc _ [IH1 IH2]]; [split; [reflexivity|constructor]|].
  destruct (alphabet_chars c (in_alphabet_In c Hc)) as [Hu [Hcode Hne]].
  cbn [map flat_map]. rewrite Hcode, Hu, IH1.
  split; [reflexivity|]. constructor; assumption.
Qed.

(** The run of the source's loop on the valid characters alone: it
    yields the decoded bytes, and it is a run of the bit buffer. *)
Lemma base32Decode_run encoded :
  let valid := filter in_alphabet (toUpperCase (strip_padding encoded)) in
  let st := fold_left b32_step valid (0, 0, []) in
  base32Decode encoded = snd st
  /\ b32_inv st
  /\ b32_bits st = 5 * Z.of_nat (length valid)
  /\ fold_left b32_spec_step (map b32_value valid) (0, 0, []) = b32_abs st.
Proof.
  intros valid st.
  assert (Hinit : b32_inv (0, 0, [])) by (split; [lia|constructor]).
  destruct (b32_fold_refines valid (filter_valid _) (0, 0, []) Hinit)
    as [Hspec [Hinv Hbits]].
  fold st in Hspec, Hinv, Hbits.
  split; [|split; [exact Hinv|split; [exact Hbits|exact Hspec]]].
  rewrite base32Decode_fold, b32_fold_filter. fold valid. fold st.
  apply map_mod_bytes.
  destruct st as [[v b] d]. exact (proj2 Hinv).
Qed.

Lemma base32Decode_bytes encoded : Forall is_byte (base32Decode encoded).
Proof.
  destruct (base32Decode_run encoded) as [Hdec [Hinv _]].
  rewrite Hdec.
  destruct (fold_left b32_step _ _) as [[v b] d]. exact (proj2 Hinv).
Qed.

(** RFC 4648 section 10 ("foobar"), in lower case with padding; spaces
    and dashes are skipped; U+00DF counts as the two letters SS. *)
Example base32Decode_examples :
  base32Decode "mzxw6ytboi======" = ascii_bytes "foobar"
  /\ base32Decode "MZXW 6YTB-OI" = ascii_bytes "foobar"
  /\ base32Decode (String (ascii_of_nat 223) "") = base32Decode "SS"
  /\ base32Decode "MY" = ascii_bytes "f"
  /\ base32Decode "M" = [].
Proof. vm_compute. repeat split. Qed.


(** ** Dynamic truncation *)

(** C10: in [generateHOTP] the tag has 20 bytes, the read of its last
    byte succeeds, the offset lies in 0..15, the four indexed positions
    lie in 0..19, and none of the four reads is [undefined]. *)
Theorem truncation_reads_in_bounds (this : TOTP) (counter : Z) :
  let tag := hotp_hmac this counter in
  (forall key data, length (hmac key data) = 20%nat)
  /\ length tag = 20%nat
  /\ (exists last, u8_get tag (length tag - 1) = Some last)
  /\ 0 <= truncation_offset tag <= 15
  /\ (forall k, (k < 4)%nat ->
                (Z.to_nat (truncation_offset tag) + k <= 19)%nat)
  /\ exists b0 b1 b2 b3,
       truncation_reads tag = [Some b0; Some b1; Some b2; Some b3].
Proof.
  intros tag.
  assert (Hlen : length tag = 20%nat) by apply hmac_length.
  pose proof (truncation_offset_range tag) as Hoff.
  split; [exact hmac_length|].
  split; [exact Hlen|].
  split; [apply u8_get_some; lia|].
  split; [exact Hoff|].
  split; [intros k Hk; lia|].
  unfold truncation_reads.
  destruct (u8_get_some tag (Z.to_nat (truncation_offset tag))) as [b0 E0];
    [lia|].
  destruct (u8_get_some tag (Z.to_nat (truncation_offset tag) + 1)) as [b1 E1];
    [lia|].
  destruct (u8_get_some tag (Z.to_nat (truncation_offset tag) + 2)) as [b2 E2];
    [lia|].
  destruct (u8_get_some tag (Z.to_nat (truncation_offset tag) + 3)) as [b3 E3];
    [lia|].
  exists b0, b1, b2, b3. rewrite E0, E1, E2, E3. reflexivity.
Qed.

(** The four shifted and masked bytes combine into the 31-bit value. *)
Lemma combine_bytes b0 b1 b2 b3 :
  is_byte b0 -> is_byte b1 -> is_byte b2 -> is_byte b3 ->
  JS.bor
    (JS.bor
       (JS.bor (JS.shl (JS.band b0 0x7f) 24) (JS.shl (JS.band b1 0xff) 16))
       (JS.shl (JS.band b2 0xff) 8))
    (JS.band b3 0xff)
  = Z.land (b0 * 2 ^ 24 + b1 * 2 ^ 16 + b2 * 2 ^ 8 + b3) 0x7FFFFFFF.
Proof.
  unfold is_byte. intros H0 H1 H2 H3.
  rewrite band_0x7f, !band_0xff.
  rewrite (Z.mod_small b1), (Z.mod_small b2), (Z.mod_small b3) by lia.
  pose proof (Z.mod_pos_bound b0 128 ltac:(lia)) as Hc.
  set (c0 := b0 mod 128) in *.
  rewrite (shl_small c0 24), (shl_small b1 16), (shl_small b2 8) by lia.
  rewrite (bor_small (c0 * 2 ^ 24) (b1 * 2 ^ 16)) by lia.
  rewrite (lor_disjoint c0 (b1 * 2 ^ 16) 24) by lia.
  rewrite (bor_small (c0 * 2 ^ 24 + b1 * 2 ^ 16) (b2 * 2 ^ 8)) by lia.
  replace (c0 * 2 ^ 24 + b1 * 2 ^ 16) with ((c0 * 2 ^ 8 + b1) * 2 ^ 16) by lia.
  rewrite (lor_disjoint (c0 * 2 ^ 8 + b1) (b2 * 2 ^ 8) 16) by lia.
  rewrite bor_small by lia.
  replace ((c0 * 2 ^ 8 + b1) * 2 ^ 16 + b2 * 2 ^ 8)
    with (((c0 * 2 ^ 8 + b1) * 2 ^ 8 + b2) * 2 ^ 8) by lia.
  rewrite lor_disjoint by lia.
  change 0x7FFFFFFF with (Z.ones 31).
  rewrite Z.land_ones by lia.
  unfold c0.
  replace (b0 * 2 ^ 24 + b1 * 2 ^ 16 + b2 * 2 ^ 8 + b3)
    with (b1 * 2 ^ 16 + b2 * 2 ^ 8 + b3 + b0 * 2 ^ 24) by lia.
  replace (2 ^ 31) with (2 ^ 24 * 128) by lia.
  rewrite Z.rem_mul_r by lia.
  rewrite Z.mod_add by lia.
  rewrite Z.div_add by lia.
  rewrite (Z.mod_small (b1 * 2 ^ 16 + b2 * 2 ^ 8 + b3) (2 ^ 24)) by lia.
  rewrite (Z.div_small (b1 * 2 ^ 16 + b2 * 2 ^ 8 + b3) (2 ^ 24)) by lia.
  simpl (0 + b0). lia.
Qed.

(** On a 20-byte tag the source's truncation is RFC 4226's. *)
Lemma truncate_spec tag :
  length tag = 20%nat -> Forall is_byte tag ->
  truncate tag = dynamic_truncation tag.
Proof.
  intros Hlen Hb. unfold truncate, dynamic_truncation.
  rewrite (truncation_offset_mod tag Hlen).
  change 0x0F with (Z.ones 4). rewrite Z.land_ones by lia.
  change (2 ^ 4) with 16.
  rewrite !operand_get.
  apply combine_bytes; apply nth_bytes; exact Hb.
Qed.

Lemma truncate_range tag :
  length tag = 20%nat -> Forall is_byte tag -> 0 <= truncate tag < 2 ^ 31.
Proof.
  intros Hlen Hb. rewrite truncate_spec by assumption.
  unfold dynamic_truncation.
  change 0x7FFFFFFF with (Z.ones 31). rewrite Z.land_ones by lia.
  apply Z.mod_pos_bound. lia.
Qed.

(** ** The counter as eight big-endian bytes *)

Lemma intToBytes_big_endian value : intToBytes value = big_endian 8 value.
Proof.
  unfold intToBytes, u8_new.
  cbn [fold_left repeat u8_put fst].
  rewrite !band_0xff, !Z.mod_mod by lia.
  unfold big_endian.
  cbn [seq map Nat.sub].
  rewrite !Z.div_div by lia.
  change (256 ^ Z.of_nat 0) with 1. rewrite Z.div_1_r.
  reflexivity.
Qed.

Lemma big_endian_length n x : length (big_endian n x) = n.
Proof. unfold big_endian. rewrite length_map, length_seq. reflexivity. Qed.

(** ** Decimal formatting *)

Lemma string_append_assoc (a b c : string) :
  ((a ++ b) ++ c)%string = (a ++ (b ++ c))%string.
Proof. induction a as [|x a IH]; simpl; [reflexivity|]. now rewrite IH. Qed.

Lemma string_length_append (a b : string) :
  String.length (a ++ b) = (String.length a + String.length b)%nat.
Proof. induction a as [|x a IH]; simpl; [reflexivity|]. now rewrite IH. Qed.

Lemma string_of_list_ascii_app (l1 l2 : list ascii) :
  string_of_list_ascii (l1 ++ l2)
  = (string_of_list_ascii l1 ++ string_of_list_ascii l2)%string.
Proof. induction l1 as [|x l1 IH]; simpl; [reflexivity|]. now rewrite IH. Qed.

Lemma string_of_list_ascii_length (l : list ascii) :
  String.length (string_of_list_ascii l) = length l.
Proof. induction l as [|x l IH]; simpl; [reflexivity|]. now rewrite IH. Qed.

Lemma repeat_snoc {A : Type} (x : A) n : repeat x n ++ [x] = x :: repeat x n.
Proof. induction n as [|n IH]; simpl; [reflexivity|]. now rewrite IH. Qed.

Lemma fixed_decimal_length width n : String.length (fixed_decimal width n) = width.
Proof.
  unfold fixed_decimal.
  rewrite string_of_list_ascii_length, length_map, length_seq. reflexivity.
Qed.

(** The last digit splits off. *)
Lemma fixed_decimal_succ width n :
  fixed_decimal (S width) n
  = (fixed_decimal width (n / 10)
     ++ String (digit_char (n mod 10)) EmptyString)%string.
Proof.
  unfold fixed_decimal.
  rewrite seq_S, map_app, string_of_list_ascii_app. simpl (0 + width)%nat.
  f_equal.
  - f_equal. apply map_ext_in. intros i Hi. apply in_seq in Hi.
    f_equal. f_equal.
    rewrite Z.div_div by (try apply Z.pow_pos_nonneg; lia).
    f_equal.
    replace (Z.of_nat (S width - 1 - i)) with (Z.succ (Z.of_nat (width - 1 - i)))
      by lia.
    rewrite Z.pow_succ_r by lia. reflexivity.
  - simpl. replace (width - 0 - width)%nat with 0%nat by lia.
    change (10 ^ Z.of_nat 0) with 1. rewrite Z.div_1_r. reflexivity.
Qed.

Lemma fixed_decimal_zero width :
  fixed_decimal width 0 = string_of_list_ascii (repeat "0"%char width).
Proof.
  induction width as [|w IH]; [reflexivity|].
  rewrite fixed_decimal_succ. change (0 / 10) with 0. rewrite IH.
  change (String (digit_char (0 mod 10)) EmptyString)
    with (string_of_list_ascii ["0"%char]).
  rewrite <- string_of_list_ascii_app, repeat_snoc. reflexivity.
Qed.

(** Any fuel that covers [n] gives the same digits. *)
Lemma decimal_fuel f1 :
  forall f2 n,
    (0 < f1)%nat -> (0 < f2)%nat ->
    0 <= n -> n < 2 ^ Z.of_nat f1 -> n < 2 ^ Z.of_nat f2 ->
    decimal f1 n = decimal f2 n.
Proof.
  induction f1 as [|f1 IH]; intros f2 n H1 H2 Hn Hf1 Hf2; [lia|].
  destruct f2 as [|f2]; [lia|].
  cbn [decimal]. destruct (Z.ltb_spec n 10) as [Hlt|Hge]; [reflexivity|].
  rewrite Nat2Z.inj_succ, Z.pow_succ_r in Hf1, Hf2 by lia.
  assert (Hd : 0 <= n / 10) by (apply Z.div_pos; lia).
  assert (Hq1 : n / 10 < 2 ^ Z.of_nat f1) by (apply Z.div_lt_upper_bound; lia).
  assert (Hq2 : n / 10 < 2 ^ Z.of_nat f2) by (apply Z.div_lt_upper_bound; lia).
  f_equal. apply IH; try assumption.
  - destruct f1; [simpl in Hf1; lia|lia].
  - destruct f2; [simpl in Hf2; lia|lia].
Qed.

(** Padding the digits of [n] to [width] gives the fixed-width numeral,
    when [n] fits in [width] digits and the fuel covers [n]. *)
Lemma padStart_decimal width :
  forall fuel n,
    (0 < width)%nat -> (0 < fuel)%nat ->
    0 <= n < 10 ^ Z.of_nat width -> n < 2 ^ Z.of_nat fuel ->
    padStart (decimal fuel n) (Z.of_nat width) "0" = fixed_decimal width n.
Proof.
  induction width as [|w IH]; intros fuel n Hw Hf0 Hn Hfuel; [lia|].
  destruct fuel as [|f]; [lia|].
  rewrite fixed_decimal_succ.
  cbn [decimal].
  destruct (Z.ltb_spec n 10) as [Hlt|Hge].
  - unfold padStart. rewrite Nat2Z.id. cbn [String.length].
    replace (S w - 1)%nat with w by lia.
    rewrite Z.div_small, Z.mod_small by lia.
    rewrite fixed_decimal_zero. reflexivity.
  - assert (Hw' : (0 < w)%nat).
    { destruct w; [simpl in Hn; lia|lia]. }
    assert (Hdiv : 0 <= n / 10 < 10 ^ Z.of_nat w).
    { rewrite Nat2Z.inj_succ, Z.pow_succ_r in Hn by lia.
      split; [apply Z.div_pos; lia|].
      apply Z.div_lt_upper_bound; lia. }
    assert (Hf : n / 10 < 2 ^ Z.of_nat f).
    { rewrite Nat2Z.inj_succ, Z.pow_succ_r in Hfuel by lia.
      apply Z.div_lt_upper_bound; lia. }
    assert (Hf' : (0 < f)%nat).
    { destruct f; [simpl in Hfuel; lia|lia]. }
    rewrite <- (IH f (n / 10) Hw' Hf' Hdiv Hf).
    unfold padStart. rewrite !Nat2Z.id, string_length_append.
    cbn [String.length].
    replace (S w - (String.length (decimal f (n / 10)) + 1))%nat
      with (w - String.length (decimal f (n / 10)))%nat by lia.
    rewrite string_append_assoc. reflexivity.
Qed.

Lemma toString_padStart n d :
  0 < d -> 0 <= n < 10 ^ d ->
  padStart (toString n) d "0" = fixed_decimal (Z.to_nat d) n.
Proof.
  intros Hd Hn. unfold toString.
  destruct (Z.ltb_spec n 0) as [Hneg|_]; [lia|].
  rewrite <- (Z2Nat.id d) at 1 by lia.
  apply padStart_decimal.
  - lia.
  - lia.
  - rewrite Z2Nat.id by lia. exact Hn.
  - rewrite Nat2Z.inj_succ, Z2Nat.id by apply Z.log2_nonneg.
    destruct (Z.eq_dec n 0) as [->|Hnz]; [reflexivity|].
    apply Z.log2_spec. lia.
Qed.

(** ** [generateHOTP] *)

Lemma big_endian_8_value x : big_endian_value (big_endian 8 x) = x mod 2 ^ 64.
Proof.
  unfold big_endian, big_endian_value.
  cbn [seq map Nat.sub fold_left].
  change (256 ^ Z.of_nat 0) with 1. rewrite Z.div_1_r.
  change (2 ^ 64) with (256 * (256 * (256 * (256 * (256 * (256 * (256 * 256))))))).
  rewrite !Z.rem_mul_r by lia.
  rewrite !Z.div_div by lia.
  change (Z.of_nat 7) with 7. change (Z.of_nat 6) with 6.
  change (Z.of_nat 5) with 5. change (Z.of_nat 4) with 4.
  change (Z.of_nat 3) with 3. change (Z.of_nat 2) with 2.
  change (Z.of_nat 1) with 1.
  change (256 ^ 7) with (256 * (256 * (256 * (256 * (256 * (256 * 256)))))).
  change (256 ^ 6) with (256 * (256 * (256 * (256 * (256 * 256))))).
  change (256 ^ 5) with (256 * (256 * (256 * (256 * 256)))).
  change (256 ^ 4) with (256 * (256 * (256 * 256))).
  change (256 ^ 3) with (256 * (256 * 256)).
  change (256 ^ 2) with (256 * 256).
  change (256 ^ 1) with 256.
  rewrite !Z.mul_assoc.
  ring.
Qed.

(** The source's [generateHOTP] is the specification's, for every
    counter, when [digits] is positive. *)
Lemma generateHOTP_refines this counter :
  0 < digits this -> generateHOTP this counter = generateHOTP_spec this counter.
Proof.
  intros Hd. unfold generateHOTP, generateHOTP_spec, hotp_hmac.
  rewrite intToBytes_big_endian.
  rewrite <- hmac_refines by apply base32Decode_bytes.
  set (tag := hmac _ _).
  assert (Hlen : length tag = 20%nat) by apply hmac_length.
  assert (Hb : Forall is_byte tag) by apply hmac_bytes.
  pose proof (truncate_range tag Hlen Hb) as Hr.
  rewrite <- (truncate_spec tag Hlen Hb).
  assert (Hp : 0 < 10 ^ digits this) by (apply Z.pow_pos_nonneg; lia).
  rewrite Z.rem_mod_nonneg by lia.
  apply toString_padStart; [exact Hd|].
  apply Z.mod_pos_bound. exact Hp.
Qed.



(** ** [verify] *)

Section Verify.

Variable this : TOTP.
Variable token : string.
Variable window : Z.
Variable counter : Z.

(** The test of one offset. *)
Let hit (i : Z) : bool := String.eqb (generateHOTP this (counter + i)) token.

(** With one unit of fuel per remaining offset the loop is a
    left-to-right search through the remaining offsets. *)
Lemma verify_loop_existsb :
  forall fuel i,
    fuel = Z.to_nat (window - i + 1) ->
    verify_loop this token window counter fuel i
    = existsb hit (map (fun k => i + Z.of_nat k) (seq 0 fuel)).
Proof.
  induction fuel as [|f IH]; intros i Hfuel; [reflexivity|].
  cbn [verify_loop seq map existsb].
  destruct (Z.leb_spec i window) as [Hle|Hgt]; [|lia].
  rewrite Z.add_0_r. fold (hit i).
  destruct (hit i); [reflexivity|]. cbn [orb].
  rewrite IH by lia.
  rewrite <- seq_shift, map_map.
  f_equal. apply map_ext. intros k. lia.
Qed.

(** Fuel beyond the number of remaining offsets changes nothing: the
    loop ends on its own condition. *)
Lemma verify_loop_fuel :
  forall fuel i,
    (Z.to_nat (window - i + 1) <= fuel)%nat ->
    verify_loop this token window counter fuel i
    = verify_loop this token window counter (Z.to_nat (window - i + 1)) i.
Proof.
  induction fuel as [|f IH]; intros i Hfuel.
  - replace (Z.to_nat (window - i + 1)) with 0%nat by lia. reflexivity.
  - destruct (Z.leb_spec i window) as [Hle|Hgt].
    + replace (Z.to_nat (window - i + 1))
        with (S (Z.to_nat (window - (i + 1) + 1))) by lia.
      cbn [verify_loop].
      destruct (Z.leb_spec i window) as [_|Hgt]; [|lia].
      destruct (String.eqb _ token); [reflexivity|].
      apply IH. lia.
    + replace (Z.to_nat (window - i + 1)) with 0%nat by lia.
      cbn [verify_loop].
      destruct (Z.leb_spec i window) as [Hle|_]; [lia|reflexivity].
Qed.

Lemma verify_loop_offsets :
  verify_loop this token window counter (Z.to_nat (2 * window + 1)) (- window)
  = existsb hit (offsets window).
Proof.
  unfold offsets. apply verify_loop_existsb. f_equal. lia.
Qed.

End Verify.

Lemma in_offsets window i : In i (offsets window) <-> - window <= i <= window.
Proof.
  unfold offsets. rewrite in_map_iff. split.
  - intros [k [<- Hk]]. apply in_seq in Hk. lia.
  - intros H. exists (Z.to_nat (i + window)). split; [lia|].
    apply in_seq. lia.
Qed.



Lemma verify_existsb this token window timestamp :
  verify this token window timestamp
  = existsb (fun i => String.eqb
                        (generateHOTP this (currentCounter this timestamp + i))
                        token)
            (offsets window).
Proof. unfold verify. apply verify_loop_offsets. Qed.

Lemma verify_true_iff this token window timestamp :
  verify this token window timestamp = true
  <-> exists i, - window <= i <= window
                /\ generateHOTP this (currentCounter this timestamp + i) = token.
Proof.
  rewrite verify_existsb, existsb_exists. split.
  - intros [i [Hin Heq]]. exists i. split; [apply in_offsets; exact Hin|].
    apply String.eqb_eq. exact Heq.
  - intros [i [Hin Heq]]. exists i. split; [apply in_offsets; exact Hin|].
    apply String.eqb_eq. exact Heq.
Qed.

Lemma verify_false_iff this token window timestamp :
  verify this token window timestamp = false
  <-> forall i, - window <= i <= window ->
                generateHOTP this (currentCounter this timestamp + i) <> token.
Proof.
  split.
  - intros Hf i Hi Heq.
    assert (Ht : verify this token window timestamp = true)
      by (apply verify_true_iff; eauto).
    congruence.
  - intros Hall. destruct (verify this token window timestamp) eqn:E;
      [|reflexivity].
    apply verify_true_iff in E. destruct E as [i [Hi Heq]].
    exfalso. exact (Hall i Hi Heq).
Qed.




(** ** The edges of the verification window *)




(** ** [getRemainingSeconds] *)



(** ** The constructor *)



(** ** Test vectors *)

(** C6, the claim as stated fails: the digest of "abc" is not the
    39-digit numeral of the specification, which lacks the last digit. *)
Lemma sha1_abc_not_39_digits :
  String.length "a9993e364706816aba3e25717850c26c9cd0d89" = 39%nat
  /\ String.length (hex (sha1 (ascii_bytes "abc"))) = 40%nat
  /\ hex (sha1 (ascii_bytes "abc"))
     <> "a9993e364706816aba3e25717850c26c9cd0d89"%string.
Proof. vm_compute. repeat split. discriminate. Qed.

(** C6, amended: the digest of the empty sequence is
    da39a3ee5e6b4b0d3255bfef95601890afd80709 and the digest of "abc" is
    a9993e364706816aba3e25717850c26c9cd0d89d, the published values. *)
Theorem sha1_test_vectors :
  hex (sha1 []) = "da39a3ee5e6b4b0d3255bfef95601890afd80709"%string
  /\ hex (sha1 (ascii_bytes "abc"))
     = "a9993e364706816aba3e25717850c26c9cd0d89d"%string
  /\ length (sha1 []) = 20%nat
  /\ length (sha1 (ascii_bytes "abc")) = 20%nat.
Proof. vm_compute. repeat split. Qed.

(** C2, the claim as stated fails: the secret is Base32-decoded, so the
    string "12345678901234567890" gives a 7-byte key and other codes. *)
Lemma hotp_ascii_secret_differs :
  TOTP_constructor "12345678901234567890" no_options
  = JS.Normal (default_instance "12345678901234567890")
  /\ hex (base32Decode "12345678901234567890") = "d6f9df7f5be77d"%string
  /\ generateHOTP (default_instance "12345678901234567890") 0 = "882301"%string
  /\ generateHOTP (default_instance "12345678901234567890") 0 <> "755224"%string
  /\ generateHOTP (default_instance "12345678901234567890") 1 = "020877"%string
  /\ generateHOTP (default_instance "12345678901234567890") 1 <> "287082"%string.
Proof. vm_compute. repeat split; discriminate. Qed.

(** C2, amended: with the Base32 encoding
    "GEZDGNBVGY3TQOJQGEZDGNBVGY3TQOJQ" of the RFC 4226 secret and the
    default configuration, the codes of the counters 0 to 9 are the ones
    of RFC 4226 Appendix D. *)
Theorem hotp_rfc4226_vectors :
  TOTP_constructor "GEZDGNBVGY3TQOJQGEZDGNBVGY3TQOJQ" no_options
  = JS.Normal (default_instance "GEZDGNBVGY3TQOJQGEZDGNBVGY3TQOJQ")
  /\ base32Decode "GEZDGNBVGY3TQOJQGEZDGNBVGY3TQOJQ"
     = ascii_bytes "12345678901234567890"
  /\ map (generateHOTP (default_instance "GEZDGNBVGY3TQOJQGEZDGNBVGY3TQOJQ"))
         [0; 1; 2; 3; 4; 5; 6; 7; 8; 9]
     = ["755224"; "287082"; "359152"; "969429"; "338314";
        "254676"; "287922"; "162583"; "399871"; "520489"]%string.
Proof. vm_compute. repeat split. Qed.

(** ** [add32] and [rotateLeft] *)

Lemma shru_0 x : JS.shru x 0 = x mod 2 ^ 32.
Proof. unfold JS.shru. change (JS.ToUint32 0 mod 32) with 0. apply Z.shiftr_0_r. Qed.

Lemma add32_mod a b : add32 a b = (a + b) mod 2 ^ 32.
Proof. unfold add32. apply shru_0. Qed.


Lemma lor_mod_pow2 a b n :
  0 <= n -> Z.lor a b mod 2 ^ n = Z.lor (a mod 2 ^ n) (b mod 2 ^ n).
Proof.
  intros Hn. rewrite <- !Z.land_ones by lia. apply Z.land_lor_distr_l.
Qed.

(** The source's rotation is the arithmetic one, on the low 32 bits of
    its argument. *)
Lemma rotateLeft_rotl32 v n :
  0 < n < 32 -> rotateLeft v n = rotl32 n (v mod 2 ^ 32).
Proof.
  intros Hn. unfold rotateLeft, rotl32. rewrite shru_0.
  unfold JS.bor. rewrite lor_mod_pow2 by lia.
  rewrite !(ToInt32_mod _ 32) by lia.
  unfold JS.shl, JS.shru.
  rewrite (ToUint32_id n), (Z.mod_small n 32) by lia.
  rewrite (ToUint32_id (32 - n)), (Z.mod_small (32 - n) 32) by lia.
  rewrite (ToInt32_mod _ 32) by lia.
  rewrite Z.shiftl_mul_pow2, Z.shiftr_div_pow2 by lia.
  unfold JS.ToUint32.
  assert (Hp : 0 < 2 ^ n) by (apply Z.pow_pos_nonneg; lia).
  assert (Hq : 0 < 2 ^ (32 - n)) by (apply Z.pow_pos_nonneg; lia).
  assert (E : 2 ^ 32 = 2 ^ (32 - n) * 2 ^ n)
    by (rewrite <- Z.pow_add_r by lia; f_equal; lia).
  pose proof (Z.mod_pos_bound v (2 ^ 32) ltac:(lia)) as Hu.
  set (u := v mod 2 ^ 32) in *.
  assert (Hhi : 0 <= u / 2 ^ (32 - n) < 2 ^ n).
  { split; [apply Z.div_pos; lia|].
    apply Z.div_lt_upper_bound; lia. }
  assert (Hn32 : 2 ^ n <= 2 ^ 32) by (apply Z.pow_le_mono_r; lia).
  rewrite (Z.mod_small (u / 2 ^ (32 - n))) by lia.
  rewrite E at 1. rewrite Z.mul_mod_distr_r by lia.
  rewrite (ToInt32_mod v (32 - n)) by lia.
  rewrite E at 1. rewrite Z.mul_mod_distr_r by lia.
  subst u. rewrite mod_mod_pow2 by lia.
  apply lor_disjoint; lia.
Qed.

Lemma mul_pow2_mod32 x n :
  0 < n < 32 -> (x * 2 ^ n) mod 2 ^ 32 = x mod 2 ^ (32 - n) * 2 ^ n.
Proof.
  intros Hn.
  assert (Hp : 0 < 2 ^ n) by (apply Z.pow_pos_nonneg; lia).
  assert (Hq : 0 < 2 ^ (32 - n)) by (apply Z.pow_pos_nonneg; lia).
  replace (2 ^ 32) with (2 ^ (32 - n) * 2 ^ n)
    by (rewrite <- Z.pow_add_r by lia; f_equal; lia).
  apply Z.mul_mod_distr_r; lia.
Qed.

Lemma rotl32_range n x : 0 < n < 32 -> 0 <= x < 2 ^ 32 -> 0 <= rotl32 n x < 2 ^ 32.
Proof.
  intros Hn Hx. unfold rotl32.
  assert (Hp : 0 < 2 ^ n) by (apply Z.pow_pos_nonneg; lia).
  assert (Hq : 0 < 2 ^ (32 - n)) by (apply Z.pow_pos_nonneg; lia).
  assert (E : 2 ^ 32 = 2 ^ (32 - n) * 2 ^ n)
    by (rewrite <- Z.pow_add_r by lia; f_equal; lia).
  rewrite mul_pow2_mod32 by lia.
  pose proof (Z.mod_pos_bound x (2 ^ (32 - n)) ltac:(lia)).
  assert (0 <= x / 2 ^ (32 - n) < 2 ^ n).
  { split; [apply Z.div_pos; lia|]. apply Z.div_lt_upper_bound; lia. }
  assert (x mod 2 ^ (32 - n) * 2 ^ n <= (2 ^ (32 - n) - 1) * 2 ^ n)
    by (apply Z.mul_le_mono_nonneg_r; lia).
  assert (0 <= x mod 2 ^ (32 - n) * 2 ^ n) by (apply Z.mul_nonneg_nonneg; lia).
  lia.
Qed.

Lemma rotl32_inverse n x :
  0 < n < 32 -> 0 <= x < 2 ^ 32 -> rotl32 (32 - n) (rotl32 n x) = x.
Proof.
  intros Hn Hx. unfold rotl32.
  assert (Hp : 0 < 2 ^ n) by (apply Z.pow_pos_nonneg; lia).
  assert (Hq : 0 < 2 ^ (32 - n)) by (apply Z.pow_pos_nonneg; lia).
  assert (E : 2 ^ 32 = 2 ^ (32 - n) * 2 ^ n)
    by (rewrite <- Z.pow_add_r by lia; f_equal; lia).
  replace (32 - (32 - n)) with n by lia.
  rewrite (mul_pow2_mod32 x n) by lia.
  pose proof (Z.mod_pos_bound x (2 ^ (32 - n)) ltac:(lia)) as Hlo.
  assert (Hhi : 0 <= x / 2 ^ (32 - n) < 2 ^ n).
  { split; [apply Z.div_pos; lia|]. apply Z.div_lt_upper_bound; lia. }
  pose proof (Z.div_mod x (2 ^ (32 - n)) ltac:(lia)) as Hx'.
  set (lo := x mod 2 ^ (32 - n)) in *. set (hi := x / 2 ^ (32 - n)) in *.
  replace (2 ^ 32) with (2 ^ n * 2 ^ (32 - n)) by lia.
  rewrite Z.mul_mod_distr_r by lia.
  rewrite (Z.add_comm (lo * 2 ^ n) hi).
  rewrite Z.mod_add, Z.div_add by lia.
  rewrite (Z.mod_small hi), (Z.div_small hi) by lia.
  lia.
Qed.

(** X2: on a 32-bit word [x] and an amount [n] of 1..31, [rotateLeft]
    returns a 32-bit word whose bit [i] is bit [(i - n) mod 32] of [x],
    and rotating on by [32 - n] gives [x] back. *)
Theorem rotateLeft_rotates (x n : Z) :
  0 <= x < 2 ^ 32 -> 0 < n < 32 ->
  0 <= rotateLeft x n < 2 ^ 32
  /\ (forall i, 0 <= i < 32 ->
                Z.testbit (rotateLeft x n) i = Z.testbit x ((i - n) mod 32))
  /\ rotateLeft (rotateLeft x n) (32 - n) = x.
Proof.
  intros Hx Hn.
  assert (Er : rotateLeft x n = rotl32 n x).
  { rewrite rotateLeft_rotl32 by lia. rewrite Z.mod_small by lia. reflexivity. }
  pose proof (rotl32_range n x Hn Hx) as Hr.
  split; [rewrite Er; exact Hr|].
  split.
  - intros i Hi. rewrite Er. unfold rotl32.
    assert (Hp : 0 < 2 ^ n) by (apply Z.pow_pos_nonneg; lia).
    assert (Hq : 0 < 2 ^ (32 - n)) by (apply Z.pow_pos_nonneg; lia).
    assert (E : 2 ^ 32 = 2 ^ (32 - n) * 2 ^ n)
      by (rewrite <- Z.pow_add_r by lia; f_equal; lia).
    rewrite mul_pow2_mod32 by lia.
    assert (Hhi : 0 <= x / 2 ^ (32 - n) < 2 ^ n).
    { split; [apply Z.div_pos; lia|]. apply Z.div_lt_upper_bound; lia. }
    rewrite <- lor_disjoint by lia.
    rewrite Z.lor_spec.
    destruct (Z.lt_ge_cases i n) as [Hlt|Hge].
    + rewrite Z.mul_pow2_bits_low by lia. cbn [orb].
      rewrite Z.div_pow2_bits by lia.
      f_equal. symmetry.
      replace (i - n) with (i + (32 - n) + (-1) * 32) by lia.
      rewrite Z.mod_add by lia. apply Z.mod_small. lia.
    + replace i with (n + (i - n)) at 1 2 by lia.
      rewrite Z.mul_pow2_bits_add by lia.
      rewrite Z.div_pow2_bits by lia.
      rewrite Z.mod_pow2_bits_low by lia.
      rewrite (Z.bits_above_log2 x (n + (i - n) + (32 - n))).
      * rewrite orb_false_r. f_equal. symmetry. apply Z.mod_small. lia.
      * lia.
      * assert (Z.log2 x < 32).
        { destruct (Z.eq_dec x 0) as [E0|Hz]; [rewrite E0; reflexivity|].
          apply Z.log2_lt_pow2; lia. }
        lia.
  - rewrite Er. rewrite rotateLeft_rotl32 by lia.
    rewrite Z.mod_small by lia. apply rotl32_inverse; assumption.
Qed.

Lemma rotateLeft_rotates_witness :
  0 <= rotateLeft 0x80000001 1 < 2 ^ 32
  /\ (forall i, 0 <= i < 32 ->
                Z.testbit (rotateLeft 0x80000001 1) i
                = Z.testbit 0x80000001 ((i - 1) mod 32))
  /\ rotateLeft (rotateLeft 0x80000001 1) (32 - 1) = 0x80000001.
Proof. apply (rotateLeft_rotates 0x80000001 1); lia. Defined.

(** ** [intToBytes] *)

Lemma pow_256 k : 0 <= k -> 256 ^ k = 2 ^ (8 * k).
Proof. intros Hk. change 256 with (2 ^ 8). rewrite <- Z.pow_mul_r by lia. reflexivity. Qed.

Lemma big_endian_8_mod x : big_endian 8 (x mod 2 ^ 64) = big_endian 8 x.
Proof.
  unfold big_endian. apply map_ext_in. intros i Hi. apply in_seq in Hi.
  rewrite pow_256 by lia. change 256 with (2 ^ 8).
  rewrite !div_mod_pow2 by lia.
  rewrite mod_mod_pow2 by lia. reflexivity.
Qed.

Lemma big_endian_bytes n x : Forall is_byte (big_endian n x).
Proof.
  unfold big_endian. apply Forall_forall. intros b Hb.
  apply in_map_iff in Hb. destruct Hb as [i [<- _]].
  unfold is_byte. apply Z.mod_pos_bound. lia.
Qed.

Lemma intToBytes_eq_iff v v' :
  intToBytes v = intToBytes v' <-> v mod 2 ^ 64 = v' mod 2 ^ 64.
Proof.
  rewrite !intToBytes_big_endian. split.
  - intros E. rewrite <- !big_endian_8_value. rewrite E. reflexivity.
  - intros E. rewrite <- (big_endian_8_mod v), <- (big_endian_8_mod v'), E.
    reflexivity.
Qed.

(** X3: [intToBytes] returns eight bytes that denote its argument modulo
    2^64, most significant first; two arguments give the same bytes exactly
    when they are congruent modulo 2^64, so a negative value is written in
    two's complement. *)
Theorem intToBytes_congruence (v v' : Z) :
  length (intToBytes v) = 8%nat
  /\ Forall is_byte (intToBytes v)
  /\ big_endian_value (intToBytes v) = v mod 2 ^ 64
  /\ (intToBytes v = intToBytes v' <-> v mod 2 ^ 64 = v' mod 2 ^ 64).
Proof.
  split; [rewrite intToBytes_big_endian; apply big_endian_length|].
  split; [rewrite intToBytes_big_endian; apply big_endian_bytes|].
  split; [rewrite intToBytes_big_endian; apply big_endian_8_value|].
  apply intToBytes_eq_iff.
Qed.

(** ** The code as a number *)

Lemma list_ascii_of_string_app (a b : string) :
  list_ascii_of_string (a ++ b)
  = list_ascii_of_string a ++ list_ascii_of_string b.
Proof. induction a as [|x a IH]; simpl; [reflexivity|]. now rewrite IH. Qed.

Lemma code_digit_char d : 0 <= d < 10 -> code (digit_char d) = 48 + d.
Proof.
  intros H.
  assert (E : d = 0 \/ d = 1 \/ d = 2 \/ d = 3 \/ d = 4 \/ d = 5 \/ d = 6
              \/ d = 7 \/ d = 8 \/ d = 9) by lia.
  repeat (destruct E as [-> | E]; [reflexivity|]). subst. reflexivity.
Qed.

Lemma decimal_value_snoc s c :
  decimal_value (s ++ String c EmptyString)
  = decimal_value s * 10 + (code c - 48).
Proof.
  unfold decimal_value. rewrite list_ascii_of_string_app, fold_left_app.
  reflexivity.
Qed.

(** Reading a fixed-width numeral gives the number back. *)
Lemma fixed_decimal_value width :
  forall n,
    0 <= n < 10 ^ Z.of_nat width ->
    decimal_value (fixed_decimal width n) = n
    /\ Forall is_digit (list_ascii_of_string (fixed_decimal width n)).
Proof.
  induction width as [|w IH]; intros n Hn.
  - simpl in Hn. assert (n = 0) by lia. subst. split; [reflexivity|constructor].
  - rewrite fixed_decimal_succ.
    rewrite Nat2Z.inj_succ, Z.pow_succ_r in Hn by lia.
    assert (Hq : 0 <= n / 10 < 10 ^ Z.of_nat w).
    { split; [apply Z.div_pos; lia|apply Z.div_lt_upper_bound; lia]. }
    destruct (IH (n / 10) Hq) as [Hv Hd].
    pose proof (Z.mod_pos_bound n 10 ltac:(lia)) as Hm.
    split.
    + rewrite decimal_value_snoc, Hv, code_digit_char by lia.
      pose proof (Z.div_mod n 10 ltac:(lia)). lia.
    + rewrite list_ascii_of_string_app. apply Forall_app. split; [exact Hd|].
      constructor; [|constructor]. unfold is_digit.
      rewrite code_digit_char by lia. lia.
Qed.

(** X4: with a positive [digits], the code [generateHOTP] returns is made
    of decimal digits only, and read as a number it is the 31-bit
    truncated value modulo [10 ^ digits]; from ten digits on it is the
    truncated value itself, so further digits are leading zeros. *)
Theorem generateHOTP_decimal (this : TOTP) (counter : Z) :
  0 < digits this ->
  let code := truncate (hotp_hmac this counter) in
  Forall is_digit (list_ascii_of_string (generateHOTP this counter))
  /\ 0 <= code < 2 ^ 31
  /\ decimal_value (generateHOTP this counter) = code mod 10 ^ digits this
  /\ (10 <= digits this -> decimal_value (generateHOTP this counter) = code).
Proof.
  intros Hd code0.
  assert (Hr : 0 <= code0 < 2 ^ 31).
  { apply truncate_range; [apply hmac_length|apply hmac_bytes]. }
  assert (Hp : 0 < 10 ^ digits this) by (apply Z.pow_pos_nonneg; lia).
  assert (Hm : 0 <= code0 mod 10 ^ digits this < 10 ^ digits this)
    by (apply Z.mod_pos_bound; exact Hp).
  assert (E : generateHOTP this counter
              = fixed_decimal (Z.to_nat (digits this))
                              (code0 mod 10 ^ digits this)).
  { unfold generateHOTP. fold code0.
    rewrite Z.rem_mod_nonneg by lia.
    apply toString_padStart; assumption. }
  destruct (fixed_decimal_value (Z.to_nat (digits this))
                                (code0 mod 10 ^ digits this)) as [Hv Hdig].
  { rewrite Z2Nat.id by lia. exact Hm. }
  rewrite E.
  split; [exact Hdig|]. split; [exact Hr|]. split; [exact Hv|].
  intros H10. rewrite Hv. apply Z.mod_small.
  assert (10 ^ 10 <= 10 ^ digits this) by (apply Z.pow_le_mono_r; lia).
  lia.
Qed.

Lemma generateHOTP_decimal_witness :
  Forall is_digit
         (list_ascii_of_string
            (generateHOTP (mkTOTP "GEZDGNBVGY3TQOJQ" 12 30 "SHA-1") 3))
  /\ 0 <= truncate (hotp_hmac (mkTOTP "GEZDGNBVGY3TQOJQ" 12 30 "SHA-1") 3)
       < 2 ^ 31
  /\ decimal_value (generateHOTP (mkTOTP "GEZDGNBVGY3TQOJQ" 12 30 "SHA-1") 3)
     = truncate (hotp_hmac (mkTOTP "GEZDGNBVGY3TQOJQ" 12 30 "SHA-1") 3)
       mod 10 ^ digits (mkTOTP "GEZDGNBVGY3TQOJQ" 12 30 "SHA-1")
  /\ (10 <= digits (mkTOTP "GEZDGNBVGY3TQOJQ" 12 30 "SHA-1") ->
      decimal_value (generateHOTP (mkTOTP "GEZDGNBVGY3TQOJQ" 12 30 "SHA-1") 3)
      = truncate (hotp_hmac (mkTOTP "GEZDGNBVGY3TQOJQ" 12 30 "SHA-1") 3)).
Proof.
  apply (generateHOTP_decimal (mkTOTP "GEZDGNBVGY3TQOJQ" 12 30 "SHA-1") 3).
  simpl. lia.
Defined.

(** X5: the counter enters [generateHOTP] modulo 2^64 only: counters
    that differ by a multiple of 2^64 have the same code, and a negative
    counter has the code of its two's complement. *)
Theorem generateHOTP_counter_wraps (this : TOTP) (counter k : Z) :
  generateHOTP this (counter + k * 2 ^ 64) = generateHOTP this counter
  /\ generateHOTP this counter = generateHOTP this (counter mod 2 ^ 64).
Proof.
  assert (E : forall c c', c mod 2 ^ 64 = c' mod 2 ^ 64 ->
                           generateHOTP this c = generateHOTP this c').
  { intros c c' H. unfold generateHOTP, hotp_hmac.
    rewrite (proj2 (intToBytes_eq_iff c c') H). reflexivity. }
  split; apply E.
  - apply Z.mod_add. lia.
  - symmetry. apply Z.mod_mod. lia.
Qed.

(** ** The lifetime of a code *)







(** ** More on [verify] *)




(** X9: with a negative window the loop of [verify] has no iteration:
    every token is rejected, the generated one included. *)
Theorem verify_negative_window (this : TOTP) (token : string)
        (window timestamp : Z) :
  window < 0 -> verify this token window timestamp = false.
Proof.
  intros Hw. apply verify_false_iff. intros i Hi. lia.
Qed.

Lemma verify_negative_window_witness :
  verify (default_instance "GEZDGNBVGY3TQOJQ")
         (generate (default_instance "GEZDGNBVGY3TQOJQ") 0) (-1) 0 = false.
Proof.
  apply (verify_negative_window (default_instance "GEZDGNBVGY3TQOJQ")). lia.
Defined.



(** X11: with a positive [digits], a token whose length is not [digits]
    is rejected whatever the window and the timestamp. *)
Theorem verify_rejects_wrong_length (this : TOTP) (token : string)
        (window timestamp : Z) :
  0 < digits this -> period this <> 0 ->
  String.length token <> Z.to_nat (digits this) ->
  verify this token window timestamp = false.
Proof.
  intros Hd _ Hlen. apply verify_false_iff. intros i _ Heq.
  apply Hlen. rewrite <- Heq.
  rewrite generateHOTP_refines by exact Hd. apply fixed_decimal_length.
Qed.

Lemma verify_rejects_wrong_length_witness :
  verify (default_instance "GEZDGNBVGY3TQOJQ") "12345" 1 0 = false.
Proof.
  apply (verify_rejects_wrong_length (default_instance "GEZDGNBVGY3TQOJQ")).
  - simpl. lia.
  - discriminate.
  - simpl. lia.
Defined.

(** ** More on [hmac] *)

(** The key block: what [hmac] makes of the key before the two pads. *)
Lemma hmac_key_block key :
  (length key <= 64)%nat ->
  (if (length key <? blockSize)%nat then u8_set (u8_new blockSize) key 0
   else key)
  = key ++ repeat 0 (64 - length key).
Proof.
  intros Hl. unfold blockSize. destruct (Nat.ltb_spec (length key) 64).
  - apply u8_set_new.
  - replace (64 - length key)%nat with 0%nat by lia.
    cbn [repeat]. rewrite app_nil_r. reflexivity.
Qed.

(** X12: on a key of bytes, [hmac] is HMAC as RFC 2104 defines it over
    the source's [sha1]: a key longer than 64 bytes is replaced by its
    digest, the key is padded with zeros to 64 bytes, and the tag is the
    digest of the 0x5c-masked key followed by the digest of the
    0x36-masked key followed by the message; the tag has 20 bytes. *)
Theorem hmac_is_rfc2104 (key data : bytes) :
  Forall is_byte key ->
  hmac key data = hmac_spec key data
  /\ length (hmac key data) = 20%nat
  /\ Forall is_byte (hmac key data).
Proof.
  intros Hk. split; [apply hmac_refines; exact Hk|].
  split; [apply hmac_length|apply hmac_bytes].
Qed.

Lemma hmac_is_rfc2104_witness :
  hmac (repeat 0x0b 20) (ascii_bytes "Hi There")
  = hmac_spec (repeat 0x0b 20) (ascii_bytes "Hi There").
Proof.
  apply (hmac_is_rfc2104 (repeat 0x0b 20) (ascii_bytes "Hi There")).
  repeat constructor; unfold is_byte; lia.
Defined.

(** X13: a key longer than 64 bytes and its SHA-1 digest give the same
    tag on every message. *)
Theorem hmac_long_key (key data : bytes) :
  (64 < length key)%nat -> hmac key data = hmac (sha1 key) data.
Proof.
  intros Hl. unfold hmac, blockSize.
  destruct (Nat.ltb_spec 64 (length key)) as [_|]; [|lia].
  rewrite sha1_length. cbn [Nat.ltb Nat.leb]. reflexivity.
Qed.

Lemma hmac_long_key_witness :
  hmac (repeat 0xaa 65) [] = hmac (sha1 (repeat 0xaa 65)) [].
Proof.
  apply (hmac_long_key (repeat 0xaa 65) []). simpl. lia.
Defined.

(** X14: zero bytes at the end of a key of at most 64 bytes do not
    count: the key and the key followed by zero bytes give the same tag. *)
Theorem hmac_key_trailing_zeros (key data : bytes) (k : nat) :
  (length key + k <= 64)%nat ->
  hmac (key ++ repeat 0 k) data = hmac key data.
Proof.
  intros Hl. unfold hmac.
  assert (Hlen : length (key ++ repeat 0 k) = (length key + k)%nat)
    by (rewrite length_app, repeat_length; reflexivity).
  assert (E1 : Nat.ltb blockSize (length (key ++ repeat 0 k)) = false)
    by (apply Nat.ltb_ge; unfold blockSize; lia).
  assert (E2 : (blockSize <? length key)%nat = false)
    by (apply Nat.ltb_ge; unfold blockSize; lia).
  rewrite E1, E2.
  rewrite (hmac_key_block (key ++ repeat 0 k)) by lia.
  rewrite (hmac_key_block key) by lia.
  rewrite Hlen, <- app_assoc, <- repeat_app.
  replace (k + (64 - (length key + k)))%nat with (64 - length key)%nat by lia.
  reflexivity.
Qed.

Lemma hmac_key_trailing_zeros_witness :
  hmac ([1; 2; 3] ++ repeat 0 5) [] = hmac [1; 2; 3] [].
Proof.
  apply (hmac_key_trailing_zeros [1; 2; 3] [] 5). simpl. lia.
Defined.

(** ** More on [base32Decode] *)

Example base32Encode_rfc4648 :
  base32Encode (ascii_bytes "") = ""%string
  /\ base32Encode (ascii_bytes "f") = "MY======"%string
  /\ base32Encode (ascii_bytes "fo") = "MZXQ===="%string
  /\ base32Encode (ascii_bytes "foo") = "MZXW6==="%string
  /\ base32Encode (ascii_bytes "foob") = "MZXW6YQ="%string
  /\ base32Encode (ascii_bytes "fooba") = "MZXW6YTB"%string
  /\ base32Encode (ascii_bytes "foobar") = "MZXW6YTBOI======"%string.
Proof. vm_compute. repeat split. Qed.

(** Positional numerals in base [B], most significant digit first. *)
Lemma fold_base B l :
  forall a,
    fold_left (fun acc d => acc * B + d) l a
    = a * B ^ Z.of_nat (length l) + fold_left (fun acc d => acc * B + d) l 0.
Proof.
  induction l as [|x l IH]; intros a.
  - cbn [fold_left length]. change (B ^ Z.of_nat 0) with 1. lia.
  - cbn [fold_left length]. rewrite IH, (IH (0 * B + x)).
    rewrite Nat2Z.inj_succ, Z.pow_succ_r by lia. ring.
Qed.

Lemma digits_succ B m x :
  0 < B ->
  map (fun j => (x / B ^ Z.of_nat (S m - 1 - j)) mod B) (seq 0 (S m))
  = map (fun j => (x / B / B ^ Z.of_nat (m - 1 - j)) mod B) (seq 0 m)
    ++ [x mod B].
Proof.
  intros HB. rewrite seq_S, map_app. cbn [Nat.add map]. f_equal.
  - apply map_ext_in. intros j Hj. apply in_seq in Hj.
    rewrite Z.div_div by (try apply Z.pow_pos_nonneg; lia).
    do 2 f_equal.
    replace (Z.of_nat (S m - 1 - j)) with (Z.succ (Z.of_nat (m - 1 - j))) by lia.
    rewrite Z.pow_succ_r by lia. reflexivity.
  - replace (S m - 1 - m)%nat with 0%nat by lia.
    change (B ^ Z.of_nat 0) with 1. rewrite Z.div_1_r. reflexivity.
Qed.

Lemma digits_value B m :
  0 < B ->
  forall x,
    fold_left (fun acc d => acc * B + d)
              (map (fun j => (x / B ^ Z.of_nat (m - 1 - j)) mod B) (seq 0 m)) 0
    = x mod B ^ Z.of_nat m.
Proof.
  intros HB. induction m as [|m IH]; intros x.
  - cbn [seq map fold_left]. change (B ^ Z.of_nat 0) with 1.
    rewrite Z.mod_1_r. reflexivity.
  - rewrite digits_succ by exact HB.
    rewrite fold_left_app. cbn [fold_left]. rewrite IH.
    rewrite Nat2Z.inj_succ, Z.pow_succ_r by lia.
    assert (0 < B ^ Z.of_nat m) by (apply Z.pow_pos_nonneg; lia).
    rewrite (Z.rem_mul_r x B (B ^ Z.of_nat m)) by lia. lia.
Qed.

Lemma big_endian_value_app l1 l2 :
  big_endian_value (l1 ++ l2)
  = big_endian_value l1 * 256 ^ Z.of_nat (length l2) + big_endian_value l2.
Proof.
  unfold big_endian_value. rewrite fold_left_app. apply fold_base.
Qed.

Lemma big_endian_value_range l :
  Forall is_byte l -> 0 <= big_endian_value l < 256 ^ Z.of_nat (length l).
Proof.
  induction 1 as [|x l Hx _ IH].
  - cbn. lia.
  - change (x :: l) with ([x] ++ l). rewrite big_endian_value_app.
    change (big_endian_value [x]) with (0 * 256 + x).
    cbn [length app]. rewrite Nat2Z.inj_succ, Z.pow_succ_r by lia.
    unfold is_byte in Hx.
    assert (0 < 256 ^ Z.of_nat (length l)) by (apply Z.pow_pos_nonneg; lia).
    nia.
Qed.

(** A byte sequence is the big-endian numeral of its value. *)
Lemma big_endian_of_value l :
  Forall is_byte l -> big_endian (length l) (big_endian_value l) = l.
Proof.
  induction l as [|b l IH] using rev_ind; intros Hl; [reflexivity|].
  apply Forall_app in Hl. destruct Hl as [Hl Hb].
  inversion Hb as [|? ? Hb' _]; subst. unfold is_byte in Hb'.
  rewrite length_app. cbn [length]. rewrite Nat.add_1_r.
  unfold big_endian. rewrite digits_succ by lia.
  rewrite big_endian_value_app. cbn [length].
  change (big_endian_value [b]) with (0 * 256 + b).
  change (256 ^ Z.of_nat 1) with 256.
  replace ((big_endian_value l * 256 + (0 * 256 + b)) / 256)
    with (big_endian_value l)
    by (apply Z.div_unique with (r := b); lia).
  replace ((big_endian_value l * 256 + (0 * 256 + b)) mod 256) with b
    by (apply Z.mod_unique with (q := big_endian_value l); lia).
  f_equal. apply IH. exact Hl.
Qed.

(** The bit buffer as a number: the bytes put out, then the bits held. *)
Lemma b32_spec_number values :
  Forall (fun v => 0 <= v < 32) values ->
  forall buffer held out,
    0 <= held -> 0 <= buffer < 2 ^ held ->
    let '(buffer', held', out') :=
      fold_left b32_spec_step values (buffer, held, out) in
    0 <= held' /\ 0 <= buffer' < 2 ^ held'
    /\ big_endian_value out' * 2 ^ held' + buffer'
       = (big_endian_value out * 2 ^ held + buffer)
         * 32 ^ Z.of_nat (length values)
         + base32_number values.
Proof.
  induction 1 as [|v values Hv _ IH]; intros buffer held out Hh Hb.
  - cbn [fold_left length]. unfold base32_number. cbn [fold_left].
    change (32 ^ Z.of_nat 0) with 1. split; [exact Hh|]. split; [exact Hb|lia].
  - cbn [fold_left]. unfold b32_spec_step at 2.
    assert (Hp : 0 < 2 ^ held) by (apply Z.pow_pos_nonneg; lia).
    assert (Hb1 : 0 <= buffer * 32 + v < 2 ^ (held + 5)).
    { rewrite Z.pow_add_r by lia. change (2 ^ 5) with 32. lia. }
    assert (Hnum : base32_number (v :: values)
                   = v * 32 ^ Z.of_nat (length values) + base32_number values).
    { unfold base32_number. cbn [fold_left]. rewrite fold_base. lia. }
    rewrite Hnum. cbn [length]. rewrite Nat2Z.inj_succ, Z.pow_succ_r by lia.
    destruct (Z.leb_spec 8 (held + 5)) as [Hge|Hlt].
    + set (r := held + 5 - 8).
      assert (Hr : 0 < 2 ^ r) by (apply Z.pow_pos_nonneg; unfold r; lia).
      pose proof (Z.mod_pos_bound (buffer * 32 + v) (2 ^ r) Hr) as Hm.
      specialize (IH ((buffer * 32 + v) mod 2 ^ r) r
                     (out ++ [(buffer * 32 + v) / 2 ^ r])
                     ltac:(unfold r; lia) Hm).
      destruct (fold_left b32_spec_step values _) as [[buffer' held'] out'].
      destruct IH as [H1 [H2 H3]].
      split; [exact H1|]. split; [exact H2|].
      rewrite H3. rewrite big_endian_value_app. cbn [length].
      change (big_endian_value [(buffer * 32 + v) / 2 ^ r])
        with ((buffer * 32 + v) / 2 ^ r).
      change (256 ^ Z.of_nat 1) with 256.
      pose proof (Z.div_mod (buffer * 32 + v) (2 ^ r) ltac:(lia)) as Hdm.
      set (e := (buffer * 32 + v) / 2 ^ r) in *.
      set (m := (buffer * 32 + v) mod 2 ^ r) in *.
      assert (E : 2 ^ held * 32 = 256 * 2 ^ r).
      { change 32 with (2 ^ 5). change 256 with (2 ^ 8).
        rewrite <- !Z.pow_add_r by (unfold r; lia). f_equal. unfold r. lia. }
      assert (E' : big_endian_value out * 2 ^ held * 32
                   = big_endian_value out * 256 * 2 ^ r)
        by (rewrite <- Z.mul_assoc, E; ring).
      replace ((big_endian_value out * 2 ^ held + buffer)
               * (32 * 32 ^ Z.of_nat (length values)))
        with ((big_endian_value out * 2 ^ held * 32 + (buffer * 32 + v))
              * 32 ^ Z.of_nat (length values)
              - v * 32 ^ Z.of_nat (length values)) by ring.
      rewrite E', Hdm.
      generalize (32 ^ Z.of_nat (length values)) (2 ^ r)
                 (big_endian_value out) (base32_number values).
      clearbody e m. intros. ring.
    + specialize (IH (buffer * 32 + v) (held + 5) out ltac:(lia) Hb1).
      destruct (fold_left b32_spec_step values _) as [[buffer' held'] out'].
      destruct IH as [H1 [H2 H3]].
      split; [exact H1|]. split; [exact H2|].
      rewrite H3, Z.pow_add_r by lia. change (2 ^ 5) with 32. ring.
Qed.

Lemma b32_values_range l :
  Forall (fun c => in_alphabet c = true) l ->
  Forall (fun v => 0 <= v < 32) (map b32_value l).
Proof.
  induction 1 as [|c l Hc _ IH]; cbn [map]; constructor; auto.
  apply b32_value_range. exact Hc.
Qed.

(** The decoded bytes as a number: the bits of the valid characters,
    without the last [5 * m mod 8] of them. *)
Lemma base32Decode_number encoded :
  let valid := filter in_alphabet (toUpperCase (strip_padding encoded)) in
  let m := Z.of_nat (length valid) in
  let number := base32_number (map b32_value valid) in
  Forall is_byte (base32Decode encoded)
  /\ Z.of_nat (length (base32Decode encoded)) = 5 * m / 8
  /\ big_endian_value (base32Decode encoded) = number / 2 ^ ((5 * m) mod 8).
Proof.
  intros valid m number.
  destruct (base32Decode_run encoded) as [Hdec [Hinv [Hbits Hspec]]].
  fold valid in Hdec, Hinv, Hbits, Hspec. fold m in Hbits.
  pose proof (b32_spec_number (map b32_value valid)
                (b32_values_range valid (filter_valid _)) 0 0 []
                ltac:(lia) ltac:(simpl; lia)) as Hnum.
  rewrite Hspec in Hnum. rewrite Hdec.
  destruct (fold_left b32_step valid (0, 0, [])) as [[value bits] decoded].
  cbn [b32_abs] in Hnum. cbn [snd]. unfold b32_bits in Hbits.
  destruct Hinv as [Hb Hd]. destruct Hnum as [_ [Hbuf Hn]].
  change (big_endian_value []) with 0 in Hn.
  fold number in Hn.
  assert (Hlen : Z.of_nat (length decoded) = 5 * m / 8)
    by (apply Z.div_unique with (r := bits); lia).
  assert (Hmod : (5 * m) mod 8 = bits)
    by (symmetry; apply Z.mod_unique with (q := Z.of_nat (length decoded)); lia).
  split; [exact Hd|]. split; [exact Hlen|].
  rewrite Hmod.
  apply Z.div_unique with (r := value mod 2 ^ bits); lia.
Qed.

(** X15: the bytes [base32Decode] returns are the leading whole bytes
    of the bit string its valid characters spell: with [m] valid
    characters of 5-bit values forming the number [number], the result has
    [5 * m / 8] bytes and is the big-endian writing of [number] without
    its last [5 * m mod 8] bits. *)
Theorem base32Decode_positional (encoded : string) :
  let valid := filter in_alphabet (toUpperCase (strip_padding encoded)) in
  let m := Z.of_nat (length valid) in
  let number := base32_number (map b32_value valid) in
  Z.of_nat (length (base32Decode encoded)) = 5 * m / 8
  /\ big_endian_value (base32Decode encoded) = number / 2 ^ ((5 * m) mod 8)
  /\ base32Decode encoded
     = big_endian (Z.to_nat (5 * m / 8)) (number / 2 ^ ((5 * m) mod 8)).
Proof.
  intros valid m number.
  destruct (base32Decode_number encoded) as [Hb [Hlen Hval]].
  fold valid in Hlen, Hval. fold m in Hlen, Hval. fold number in Hval.
  split; [exact Hlen|]. split; [exact Hval|].
  rewrite <- Hlen, Nat2Z.id, <- Hval.
  symmetry. apply big_endian_of_value. exact Hb.
Qed.

Lemma strip_padding_app_eq s :
  strip_padding (s ++ "=") = strip_padding s.
Proof.
  induction s as [|c tl IH]; [reflexivity|].
  cbn [String.append strip_padding]. rewrite IH. reflexivity.
Qed.

Lemma strip_padding_app_run s k :
  strip_padding (s ++ string_of_list_ascii (repeat "="%char k))
  = strip_padding s.
Proof.
  revert s. induction k as [|k IH]; intros s.
  - cbn [repeat string_of_list_ascii].
    replace (s ++ "")%string with s; [reflexivity|].
    induction s as [|c tl IHs]; [reflexivity|].
    cbn [String.append]. rewrite <- IHs. reflexivity.
  - cbn [repeat string_of_list_ascii].
    change (String "=" (string_of_list_ascii (repeat "="%char k)))
      with ("=" ++ string_of_list_ascii (repeat "="%char k))%string.
    rewrite <- string_append_assoc, IH. apply strip_padding_app_eq.
Qed.

(** The alphabet's character of a 5-bit value is valid and has that
    value. *)
Lemma alphabet_nth v :
  0 <= v < 32 ->
  in_alphabet (nth (Z.to_nat v) alphabet 0) = true
  /\ b32_value (nth (Z.to_nat v) alphabet 0) = v.
Proof.
  intros Hv.
  assert (E : exists n, (n < 32)%nat /\ v = Z.of_nat n)
    by (exists (Z.to_nat v); lia).
  destruct E as [n [Hn ->]]. rewrite Nat2Z.id.
  do 32 (destruct n as [|n]; [split; reflexivity|]). lia.
Qed.

Lemma base32_values_range data :
  Forall (fun v => 0 <= v < 32) (base32_values data).
Proof.
  unfold base32_values. apply Forall_forall. intros v Hv.
  apply in_map_iff in Hv. destruct Hv as [j [<- _]].
  apply Z.mod_pos_bound. lia.
Qed.

Lemma base32_groups_spec data :
  (8 * length data <= 5 * base32_groups data <= 8 * length data + 4)%nat.
Proof.
  unfold base32_groups.
  pose proof (Nat.div_mod_eq (8 * length data + 4) 5) as H.
  pose proof (Nat.mod_upper_bound (8 * length data + 4) 5 ltac:(lia)).
  lia.
Qed.

Lemma base32_values_number data :
  Forall is_byte data ->
  base32_number (base32_values data)
  = big_endian_value data
    * 2 ^ Z.of_nat (5 * base32_groups data - 8 * length data).
Proof.
  intros Hd. unfold base32_number, base32_values.
  rewrite digits_value by lia.
  apply Z.mod_small.
  pose proof (base32_groups_spec data) as Hg.
  pose proof (big_endian_value_range data Hd) as Hr.
  set (pad := Z.of_nat (5 * base32_groups data - 8 * length data)).
  assert (Hp : 0 < 2 ^ pad) by (apply Z.pow_pos_nonneg; unfold pad; lia).
  assert (E : 32 ^ Z.of_nat (base32_groups data)
              = 256 ^ Z.of_nat (length data) * 2 ^ pad).
  { change 32 with (2 ^ 5). change 256 with (2 ^ 8).
    rewrite <- !Z.pow_mul_r, <- Z.pow_add_r by (unfold pad; lia).
    f_equal. unfold pad. lia. }
  rewrite E. split; [apply Z.mul_nonneg_nonneg; lia|].
  apply Z.mul_lt_mono_pos_r; lia.
Qed.

(** What [base32Decode] sees of an encoded text. *)
Lemma base32Encode_valid data :
  filter in_alphabet (toUpperCase (strip_padding (base32Encode data)))
  = map (fun v => nth (Z.to_nat v) alphabet 0) (base32_values data)
  /\ map b32_value
         (map (fun v => nth (Z.to_nat v) alphabet 0) (base32_values data))
     = base32_values data.
Proof.
  set (chars := map (fun v => nth (Z.to_nat v) alphabet 0) (base32_values data)).
  assert (Hchars : Forall (fun c => in_alphabet c = true) chars).
  { unfold chars. apply Forall_forall. intros c Hc.
    apply in_map_iff in Hc. destruct Hc as [v [<- Hv]].
    apply alphabet_nth.
    exact (proj1 (Forall_forall _ _) (base32_values_range data) v Hv). }
  split.
  - unfold base32Encode. fold chars. rewrite strip_padding_app_run.
    destruct (toUpperCase_string_of_codes chars Hchars) as [Hup Hne].
    rewrite (strip_padding_id _ Hne), Hup.
    clear Hup Hne. induction Hchars as [|c l Hc _ IH]; [reflexivity|].
    cbn [filter]. rewrite Hc, IH. reflexivity.
  - unfold chars. rewrite map_map.
    rewrite <- (map_id (base32_values data)) at 2.
    apply map_ext_in. intros v Hv. apply alphabet_nth.
    exact (proj1 (Forall_forall _ _) (base32_values_range data) v Hv).
Qed.

(** X16: decoding inverts RFC 4648 encoding: for every sequence of
    bytes, [base32Decode] of its Base32 text, padding included, is the
    sequence. *)
Theorem base32Decode_encode (data : bytes) :
  Forall is_byte data -> base32Decode (base32Encode data) = data.
Proof.
  intros Hd.
  destruct (base32Decode_number (base32Encode data)) as [Hb [Hlen Hval]].
  destruct (base32Encode_valid data) as [Hvalid Hvals].
  rewrite Hvalid in Hlen, Hval. rewrite Hvals in Hval.
  rewrite length_map in Hlen, Hval.
  assert (Hm : length (base32_values data) = base32_groups data)
    by (unfold base32_values; rewrite length_map, length_seq; reflexivity).
  rewrite Hm in Hlen, Hval.
  rewrite base32_values_number in Hval by exact Hd.
  pose proof (base32_groups_spec data) as Hg.
  set (m := base32_groups data) in *.
  assert (Hn : Z.of_nat (length (base32Decode (base32Encode data)))
               = Z.of_nat (length data)).
  { rewrite Hlen. symmetry.
    apply Z.div_unique with (r := Z.of_nat (5 * m - 8 * length data)); lia. }
  assert (Hpad : (5 * Z.of_nat m) mod 8 = Z.of_nat (5 * m - 8 * length data)).
  { symmetry. apply Z.mod_unique with (q := Z.of_nat (length data)); lia. }
  rewrite Hpad in Hval.
  rewrite Z.div_mul in Hval by (apply Z.pow_nonzero; lia).
  rewrite <- (big_endian_of_value _ Hb), Hval.
  replace (length (base32Decode (base32Encode data))) with (length data)
    by lia.
  apply big_endian_of_value. exact Hd.
Qed.

Lemma base32Decode_encode_witness :
  base32Decode (base32Encode [0; 255; 16]) = [0; 255; 16].
Proof.
  apply (base32Decode_encode [0; 255; 16]).
  repeat constructor; unfold is_byte; lia.
Defined.

Lemma toUpperCase_unit_lower c :
  toUpperCase_unit (code (ascii_lower c)) = toUpperCase_unit (code c).
Proof. destruct c as [[] [] [] [] [] [] [] []]; reflexivity. Qed.

Lemma ascii_lower_is_eq c :
  (ascii_lower c =? "=")%char = (c =? "=")%char.
Proof. destruct c as [[] [] [] [] [] [] [] []]; reflexivity. Qed.

Lemma strip_padding_lower s :
  strip_padding (lower_string s) = lower_string (strip_padding s).
Proof.
  induction s as [|c tl IH]; [reflexivity|].
  cbn [lower_string strip_padding]. rewrite IH.
  destruct (strip_padding tl) as [|d r]; cbn [lower_string].
  - rewrite ascii_lower_is_eq. destruct (c =? "=")%char; reflexivity.
  - reflexivity.
Qed.

Lemma toUpperCase_lower s : toUpperCase (lower_string s) = toUpperCase s.
Proof.
  unfold toUpperCase, codes.
  induction s as [|c tl IH]; [reflexivity|].
  cbn [lower_string list_ascii_of_string map flat_map].
  rewrite toUpperCase_unit_lower, IH. reflexivity.
Qed.

(** X17: [base32Decode] does not tell the case of ASCII letters: a
    secret typed in lower case decodes to the same key and gives the same
    codes. *)
Theorem base32Decode_case_insensitive
        (encoded : string) (d p : Z) (a : string) (counter : Z) :
  base32Decode (lower_string encoded) = base32Decode encoded
  /\ generateHOTP (mkTOTP (lower_string encoded) d p a) counter
     = generateHOTP (mkTOTP encoded d p a) counter.
Proof.
  assert (E : base32Decode (lower_string encoded) = base32Decode encoded).
  { unfold base32Decode.
    rewrite strip_padding_lower, toUpperCase_lower. reflexivity. }
  split; [exact E|].
  unfold generateHOTP, hotp_hmac. cbn [secret digits]. rewrite E. reflexivity.
Qed.

(** ** [generateSecret] *)

Lemma fold_left_append {A : Type} (g : A -> string) l :
  forall init,
    fold_left (fun result i => (result ++ g i)%string) l init
    = (init ++ fold_left (fun result i => (result ++ g i)%string) l EmptyString)%string.
Proof.
  induction l as [|x l IH]; intros init.
  - cbn [fold_left]. induction init as [|c s IHs]; [reflexivity|].
    cbn [String.append]. rewrite <- IHs. reflexivity.
  - cbn [fold_left]. rewrite IH, (IH (EmptyString ++ g x)%string).
    cbn [String.append]. apply string_append_assoc.
Qed.

Lemma random_index r :
  (0 <= r)%Q -> (r < 1)%Q ->
  0 <= Qfloor (r * inject_Z (Z.of_nat (length alphabet)))%Q < 32.
Proof.
  intros H0 H1.
  change (inject_Z (Z.of_nat (length alphabet))) with (inject_Z 32).
  split.
  - change 0 with (Qfloor (inject_Z 0)). apply Qfloor_resp_le.
    apply Qmult_le_0_compat; [exact H0|]. discriminate.
  - rewrite Zlt_Qlt.
    apply Qle_lt_trans with (y := (r * inject_Z 32)%Q); [apply Qfloor_le|].
    setoid_replace (inject_Z 32) with (1 * inject_Z 32)%Q at 2 by ring.
    apply Qmult_lt_compat_r; [reflexivity|exact H1].
Qed.

(** With draws in [0, 1) every character comes from the alphabet. *)
Lemma generateSecret_chars random length :
  (forall i, (0 <= random i)%Q /\ (random i < 1)%Q) ->
  generateSecret random length
  = string_of_codes
      (map (fun i =>
              nth (Z.to_nat (Qfloor (random i * inject_Z 32)%Q)) alphabet 0)
           (seq 0 (Z.to_nat length))).
Proof.
  intros Hr. unfold generateSecret.
  generalize (seq 0 (Z.to_nat length)) as l.
  induction l as [|i l IH]; [reflexivity|].
  cbn [fold_left map]. rewrite fold_left_append, IH.
  destruct (Hr i) as [H0 H1].
  pose proof (random_index (random i) H0 H1) as Hi.
  change (inject_Z (Z.of_nat (Datatypes.length alphabet))) with (inject_Z 32) in *.
  set (index := Qfloor (random i * inject_Z 32)%Q) in *.
  destruct (Z.ltb_spec index 0) as [Hneg|_]; [lia|].
  assert (Hlt : (Z.to_nat index < Datatypes.length alphabet)%nat)
    by (change (Datatypes.length alphabet) with 32%nat; lia).
  rewrite (nth_error_nth' alphabet 0 Hlt).
  reflexivity.
Qed.

(** X18: with every draw of [Math.random()] in [0, 1),
    [generateSecret(length)] returns [length] characters, the [i]-th one
    being the alphabet's character of index [floor(32 * draw i)]; all of
    them count for [base32Decode], which makes [5 * length / 8] bytes of
    them, 20 bytes for the default length 32. *)
Theorem generateSecret_decodes (random : nat -> Q) (length : Z) :
  (forall i, (0 <= random i)%Q /\ (random i < 1)%Q) ->
  let s := generateSecret random length in
  String.length s = Z.to_nat length
  /\ (forall i, (i < Z.to_nat length)%nat ->
                nth i (codes s) 0
                = nth (Z.to_nat (Qfloor (random i * inject_Z 32)%Q)) alphabet 0)
  /\ Forall (fun c => in_alphabet c = true) (codes s)
  /\ Z.of_nat (List.length (base32Decode s)) = 5 * Z.of_nat (Z.to_nat length) / 8
  /\ (length = 32 -> List.length (base32Decode s) = 20%nat).
Proof.
  intros Hr s.
  set (chars := map (fun i =>
                       nth (Z.to_nat (Qfloor (random i * inject_Z 32)%Q))
                           alphabet 0)
                    (seq 0 (Z.to_nat length))).
  assert (Es : s = string_of_codes chars)
    by (apply generateSecret_chars; exact Hr).
  assert (Hchars : Forall (fun c => in_alphabet c = true) chars).
  { unfold chars. apply Forall_forall. intros c Hc.
    apply in_map_iff in Hc. destruct Hc as [i [<- _]].
    apply alphabet_nth. destruct (Hr i) as [H0 H1].
    exact (random_index (random i) H0 H1). }
  destruct (toUpperCase_string_of_codes chars Hchars) as [Hup Hne].
  assert (Hcodes : codes s = chars).
  { rewrite Es. unfold codes, string_of_codes.
    rewrite list_ascii_of_string_of_list_ascii, map_map.
    rewrite <- (map_id chars) at 2. apply map_ext_in. intros c Hc.
    apply alphabet_chars, in_alphabet_In.
    exact (proj1 (Forall_forall _ _) Hchars c Hc). }
  assert (Hlen : List.length chars = Z.to_nat length)
    by (unfold chars; rewrite length_map, length_seq; reflexivity).
  assert (Hdec : Z.of_nat (List.length (base32Decode s))
                 = 5 * Z.of_nat (Z.to_nat length) / 8).
  { destruct (base32Decode_number s) as [_ [Hl _]].
    rewrite Es, (strip_padding_id _ Hne), Hup in Hl.
    replace (filter in_alphabet chars) with chars in Hl.
    - rewrite Hlen in Hl. rewrite Es. exact Hl.
    - clear -Hchars. induction Hchars as [|c l Hc _ IH]; [reflexivity|].
      cbn [filter]. rewrite Hc, <- IH. reflexivity. }
  split.
  { rewrite Es. unfold string_of_codes.
    rewrite string_of_list_ascii_length, length_map. exact Hlen. }
  split.
  { intros i Hi. rewrite Hcodes. unfold chars.
    rewrite (nth_indep _ 0
               ((fun i => nth (Z.to_nat (Qfloor (random i * inject_Z 32)%Q))
                              alphabet 0) 0%nat))
      by (rewrite length_map, length_seq; exact Hi).
    rewrite (map_nth (fun i => nth (Z.to_nat (Qfloor (random i * inject_Z 32)%Q))
                                   alphabet 0)).
    rewrite seq_nth by exact Hi. reflexivity. }
  split; [rewrite Hcodes; exact Hchars|].
  split; [exact Hdec|].
  intros ->. change (5 * Z.of_nat (Z.to_nat 32) / 8) with 20 in Hdec. lia.
Qed.

Lemma generateSecret_decodes_witness :
  String.length (generateSecret (fun i => (Z.of_nat i mod 32 # 32)%Q) 32)
  = Z.to_nat 32.
Proof.
  apply (generateSecret_decodes (fun i => (Z.of_nat i mod 32 # 32)%Q) 32).
  intros i. pose proof (Z.mod_pos_bound (Z.of_nat i) 32 ltac:(lia)) as H.
  unfold Qle, Qlt. cbn [Qnum Qden]. lia.
Defined.

(** ** Canonical Base32 text *)

(** A sequence of base-[B] digits is the numeral of its value. *)
Lemma digits_of_number B l :
  0 < B -> Forall (fun d => 0 <= d < B) l ->
  map (fun j => (fold_left (fun acc d => acc * B + d) l 0
                 / B ^ Z.of_nat (length l - 1 - j)) mod B)
      (seq 0 (length l))
  = l.
Proof.
  intros HB. induction l as [|b l IH] using rev_ind; intros Hl; [reflexivity|].
  apply Forall_app in Hl. destruct Hl as [Hl Hb].
  inversion Hb as [|? ? Hb' _]; subst.
  rewrite length_app. cbn [length]. rewrite Nat.add_1_r.
  rewrite digits_succ by exact HB.
  rewrite fold_left_app. cbn [fold_left].
  set (V := fold_left (fun acc d => acc * B + d) l 0) in *.
  replace ((V * B + b) / B) with V
    by (apply Z.div_unique with (r := b); lia).
  replace ((V * B + b) mod B) with b
    by (apply Z.mod_unique with (q := V); lia).
  f_equal. apply IH. exact Hl.
Qed.

Lemma alphabet_nth_value c :
  in_alphabet c = true -> nth (Z.to_nat (b32_value c)) alphabet 0 = c.
Proof.
  intros Hc. apply in_alphabet_In in Hc. cbv in Hc.
  repeat (destruct Hc as [<- | Hc]; [reflexivity|]). contradiction.
Qed.

(** X19: on a text of alphabet characters whose length is a multiple
    of 8, encoding the decoded bytes gives the text back; so two such
    texts with the same decoded key are the same text. *)
Theorem base32Encode_decode (chars chars' : list Z) :
  Forall (fun c => in_alphabet c = true) chars ->
  (length chars mod 8 = 0)%nat ->
  base32Encode (base32Decode (string_of_codes chars)) = string_of_codes chars
  /\ (Forall (fun c => in_alphabet c = true) chars' ->
      (length chars' mod 8 = 0)%nat ->
      base32Decode (string_of_codes chars)
      = base32Decode (string_of_codes chars') ->
      string_of_codes chars = string_of_codes chars').
Proof.
  assert (Hmain : forall l,
             Forall (fun c => in_alphabet c = true) l ->
             (length l mod 8 = 0)%nat ->
             base32Encode (base32Decode (string_of_codes l))
             = string_of_codes l).
  { intros l Hl Hlen.
    destruct (toUpperCase_string_of_codes l Hl) as [Hup Hne].
    destruct (base32Decode_number (string_of_codes l)) as [Hb [Hn Hv]].
    rewrite (strip_padding_id _ Hne), Hup in Hn, Hv.
    assert (Hf : filter in_alphabet l = l).
    { clear -Hl. induction Hl as [|c l Hc _ IH]; [reflexivity|].
      cbn [filter]. rewrite Hc, IH. reflexivity. }
    rewrite Hf in Hn, Hv.
    set (key := base32Decode (string_of_codes l)) in *.
    pose proof (Nat.div_mod_eq (length l) 8) as Hdm. rewrite Hlen in Hdm.
    set (q := (length l / 8)%nat) in *.
    assert (Hkey : length key = (5 * q)%nat).
    { apply Nat2Z.inj. rewrite Hn. rewrite Hdm. symmetry.
      apply Z.div_unique with (r := 0); lia. }
    assert (Hmod : (5 * Z.of_nat (length l)) mod 8 = 0).
    { rewrite Hdm. symmetry.
      apply Z.mod_unique with (q := 5 * Z.of_nat q); lia. }
    rewrite Hmod in Hv. change (2 ^ 0) with 1 in Hv. rewrite Z.div_1_r in Hv.
    assert (Hg : base32_groups key = length l).
    { unfold base32_groups. rewrite Hkey, Hdm.
      replace (8 * (5 * q) + 4)%nat with (4 + (8 * q + 0) * 5)%nat by lia.
      rewrite Nat.div_add by lia. reflexivity. }
    assert (Hvals : base32_values key = map b32_value l).
    { unfold base32_values. rewrite Hg, Hkey.
      replace (5 * length l - 8 * (5 * q))%nat with 0%nat by lia.
      change (2 ^ Z.of_nat 0) with 1. rewrite Z.mul_1_r, Hv.
      unfold base32_number.
      rewrite <- (length_map b32_value l).
      apply digits_of_number; [lia|]. apply b32_values_range. exact Hl. }
    unfold base32Encode. rewrite Hvals, Hg, Hlen. cbn [repeat string_of_list_ascii].
    rewrite map_map.
    replace (map (fun c => nth (Z.to_nat (b32_value c)) alphabet 0) l) with l.
    - generalize (string_of_codes l) as s.
      induction s as [|c s IHs]; [reflexivity|].
      cbn [String.append]. rewrite IHs. reflexivity.
    - rewrite <- (map_id l) at 1. apply map_ext_in. intros c Hc.
      symmetry. apply alphabet_nth_value.
      exact (proj1 (Forall_forall _ _) Hl c Hc). }
  intros Hc Hlen. split; [apply Hmain; assumption|].
  intros Hc' Hlen' E.
  rewrite <- (Hmain chars Hc Hlen), <- (Hmain chars' Hc' Hlen'), E.
  reflexivity.
Qed.

Lemma base32Encode_decode_witness :
  base32Encode (base32Decode (string_of_codes (codes "MZXW6YTB")))
  = string_of_codes (codes "MZXW6YTB").
Proof.
  apply (base32Encode_decode (codes "MZXW6YTB") []).
  - repeat constructor.
  - reflexivity.
Defined.

(** ** SHA-1 against FIPS 180-1 *)

Example sha1_spec_vectors :
  hex (sha1_spec []) = "da39a3ee5e6b4b0d3255bfef95601890afd80709"%string
  /\ hex (sha1_spec (ascii_bytes "abc"))
     = "a9993e364706816aba3e25717850c26c9cd0d89d"%string
  /\ hex (sha1_spec
            (ascii_bytes
               "abcdbcdecdefdefgefghfghighijhijkijkljklmklmnlmnomnopnopq"))
     = "84983e441c3bd26ebaae4aa1f95129e5e54670f1"%string.
Proof. vm_compute. repeat split. Qed.

(** The bitwise operators commute with taking the low [n] bits. *)
Lemma land_mod_pow2 a b n :
  0 <= n -> Z.land a b mod 2 ^ n = Z.land (a mod 2 ^ n) (b mod 2 ^ n).
Proof.
  intros Hn. apply Z.bits_inj'. intros i Hi.
  rewrite Z.land_spec, !Z.testbit_mod_pow2, Z.land_spec by lia.
  destruct (i <? n); reflexivity.
Qed.

Lemma lxor_mod_pow2 a b n :
  0 <= n -> Z.lxor a b mod 2 ^ n = Z.lxor (a mod 2 ^ n) (b mod 2 ^ n).
Proof.
  intros Hn. apply Z.bits_inj'. intros i Hi.
  rewrite Z.lxor_spec, !Z.testbit_mod_pow2, Z.lxor_spec by lia.
  destruct (i <? n); reflexivity.
Qed.

Lemma lnot_mod_pow2 a n :
  0 <= n -> Z.lnot a mod 2 ^ n = Z.lxor (a mod 2 ^ n) (Z.ones n).
Proof.
  intros Hn. apply Z.bits_inj'. intros i Hi.
  rewrite Z.lxor_spec, !Z.testbit_mod_pow2, Z.lnot_spec by lia.
  rewrite Z.testbit_ones_nonneg by lia.
  destruct (i <? n); [|reflexivity].
  destruct (Z.testbit a i); reflexivity.
Qed.

Lemma band_u32 a b :
  JS.band a b mod 2 ^ 32 = Z.land (a mod 2 ^ 32) (b mod 2 ^ 32).
Proof.
  unfold JS.band. rewrite land_mod_pow2, !(ToInt32_mod _ 32) by lia.
  reflexivity.
Qed.

Lemma bor_u32 a b :
  JS.bor a b mod 2 ^ 32 = Z.lor (a mod 2 ^ 32) (b mod 2 ^ 32).
Proof.
  unfold JS.bor. rewrite lor_mod_pow2, !(ToInt32_mod _ 32) by lia.
  reflexivity.
Qed.

Lemma bxor_u32 a b :
  JS.bxor a b mod 2 ^ 32 = Z.lxor (a mod 2 ^ 32) (b mod 2 ^ 32).
Proof.
  unfold JS.bxor. rewrite lxor_mod_pow2, !(ToInt32_mod _ 32) by lia.
  reflexivity.
Qed.

Lemma bnot_u32 a :
  JS.bnot a mod 2 ^ 32 = Z.lxor (a mod 2 ^ 32) 0xFFFFFFFF.
Proof.
  unfold JS.bnot. rewrite lnot_mod_pow2, (ToInt32_mod _ 32) by lia.
  reflexivity.
Qed.

Lemma word_mod x : is_word x -> x mod 2 ^ 32 = x.
Proof. intros H. apply Z.mod_small. exact H. Qed.

Lemma rotl32_word n x : 0 < n < 32 -> is_word x -> is_word (rotl32 n x).
Proof. intros Hn Hx. apply rotl32_range; assumption. Qed.

Lemma nth_word w i : Forall is_word w -> is_word (nth i w 0).
Proof.
  intros H. revert i. induction H as [|x l Hx _ IH]; intros [|j]; simpl;
    try (unfold is_word; lia); auto.
Qed.

Lemma land_word a b : is_word a -> is_word b -> is_word (Z.land a b).
Proof.
  intros Ha Hb. unfold is_word.
  rewrite <- (word_mod a Ha), <- (word_mod b Hb), <- land_mod_pow2 by lia.
  apply Z.mod_pos_bound. lia.
Qed.

Lemma lor_word a b : is_word a -> is_word b -> is_word (Z.lor a b).
Proof.
  intros Ha Hb. unfold is_word.
  rewrite <- (word_mod a Ha), <- (word_mod b Hb), <- lor_mod_pow2 by lia.
  apply Z.mod_pos_bound. lia.
Qed.

Lemma lxor_word a b : is_word a -> is_word b -> is_word (Z.lxor a b).
Proof.
  intros Ha Hb. unfold is_word.
  rewrite <- (word_mod a Ha), <- (word_mod b Hb), <- lxor_mod_pow2 by lia.
  apply Z.mod_pos_bound. lia.
Qed.

(** The message schedule. *)
Lemma schedule_extend l :
  forall w,
    Forall is_word w ->
    fold_left
      (fun w i =>
         w ++ [rotateLeft
                 (JS.bxor (JS.bxor (JS.bxor (nth (i - 3) w 0) (nth (i - 8) w 0))
                                   (nth (i - 14) w 0))
                          (nth (i - 16) w 0)) 1])
      l w
    = fold_left
        (fun w t =>
           w ++ [rotl32 1 (Z.lxor (Z.lxor (Z.lxor (nth (t - 3) w 0)
                                                  (nth (t - 8) w 0))
                                          (nth (t - 14) w 0))
                                  (nth (t - 16) w 0))])
        l w
    /\ Forall is_word
         (fold_left
            (fun w t =>
               w ++ [rotl32 1 (Z.lxor (Z.lxor (Z.lxor (nth (t - 3) w 0)
                                                      (nth (t - 8) w 0))
                                              (nth (t - 14) w 0))
                                      (nth (t - 16) w 0))])
            l w).
Proof.
  induction l as [|i l IH]; intros w Hw; [split; [reflexivity|exact Hw]|].
  cbn [fold_left].
  assert (E : rotateLeft
                (JS.bxor (JS.bxor (JS.bxor (nth (i - 3) w 0) (nth (i - 8) w 0))
                                  (nth (i - 14) w 0))
                         (nth (i - 16) w 0)) 1
              = rotl32 1 (Z.lxor (Z.lxor (Z.lxor (nth (i - 3) w 0)
                                                 (nth (i - 8) w 0))
                                         (nth (i - 14) w 0))
                                 (nth (i - 16) w 0))).
  { rewrite rotateLeft_rotl32 by lia.
    rewrite !bxor_u32.
    rewrite !(word_mod (nth _ w 0)) by (apply nth_word; exact Hw).
    reflexivity. }
  rewrite E. apply IH.
  apply Forall_app. split; [exact Hw|].
  constructor; [|constructor].
  apply rotl32_word; [lia|].
  repeat apply lxor_word; apply nth_word; exact Hw.
Qed.

Lemma sha1_f_js t b c d :
  is_word b -> is_word c -> is_word d ->
  (if (t <? 20)%nat then JS.bor (JS.band b c) (JS.band (JS.bnot b) d)
   else if (t <? 40)%nat then JS.bxor (JS.bxor b c) d
   else if (t <? 60)%nat then
     JS.bor (JS.bor (JS.band b c) (JS.band b d)) (JS.band c d)
   else JS.bxor (JS.bxor b c) d) mod 2 ^ 32
  = sha1_f t b c d.
Proof.
  intros Hb Hc Hd. unfold sha1_f.
  destruct (t <? 20)%nat; [|destruct (t <? 40)%nat; [|destruct (t <? 60)%nat]].
  - rewrite bor_u32, !band_u32, bnot_u32.
    rewrite !(word_mod b), !(word_mod c), !(word_mod d) by assumption.
    reflexivity.
  - rewrite !bxor_u32.
    rewrite !(word_mod b), !(word_mod c), !(word_mod d) by assumption.
    reflexivity.
  - rewrite !bor_u32, !band_u32.
    rewrite !(word_mod b), !(word_mod c), !(word_mod d) by assumption.
    reflexivity.
  - rewrite !bxor_u32.
    rewrite !(word_mod b), !(word_mod c), !(word_mod d) by assumption.
    reflexivity.
Qed.

Lemma add_congr x f f' y :
  f mod 2 ^ 32 = f' -> (x + f + y) mod 2 ^ 32 = (x + f' + y) mod 2 ^ 32.
Proof.
  intros <-.
  pose proof (Z.div_mod f (2 ^ 32) ltac:(lia)) as H.
  replace (x + f + y) with (x + f mod 2 ^ 32 + y + (f / 2 ^ 32) * 2 ^ 32) by lia.
  apply Z.mod_add. lia.
Qed.

Lemma add32_temp r f f' e x k :
  f mod 2 ^ 32 = f' ->
  add32 (add32 r f) (add32 (add32 e x) k) = (r + f' + e + x + k) mod 2 ^ 32.
Proof.
  intros Hf. rewrite !add32_mod.
  rewrite Z.add_mod_idemp_l, Z.add_mod_idemp_r by lia.
  rewrite (Z.add_comm ((e + x) mod 2 ^ 32) k), Z.add_assoc.
  rewrite Z.add_mod_idemp_r by lia.
  replace (r + f + k + (e + x)) with (r + f + (k + e + x)) by lia.
  rewrite (add_congr r f f' (k + e + x) Hf). f_equal. lia.
Qed.

(** One round. *)
Lemma sha1_round_step w s t :
  regs_words s ->
  sha1_round w s t = sha1_step w s t /\ regs_words (sha1_step w s t).
Proof.
  destruct s as [a b c d e]. intros [Ha [Hb [Hc [Hd He]]]].
  cbn [ra rb rc rd re] in *.
  unfold sha1_step. cbn [ra rb rc rd re].
  split.
  - unfold sha1_round.
    pose proof (sha1_f_js t b c d Hb Hc Hd) as Hf.
    unfold sha1_k.
    destruct (t <? 20)%nat; [|destruct (t <? 40)%nat; [|destruct (t <? 60)%nat]];
      rewrite (add32_temp _ _ _ _ _ _ Hf), !rotateLeft_rotl32 by lia;
      rewrite (word_mod a Ha), (word_mod b Hb); f_equal; f_equal; lia.
  - unfold regs_words. cbn [ra rb rc rd re].
    split; [apply Z.mod_pos_bound; lia|].
    split; [exact Ha|].
    split; [apply rotl32_word; [lia|exact Hb]|].
    split; assumption.
Qed.

Lemma sha1_rounds w l :
  forall s,
    regs_words s ->
    fold_left (sha1_round w) l s = fold_left (sha1_step w) l s
    /\ regs_words (fold_left (sha1_step w) l s).
Proof.
  induction l as [|t l IH]; intros s Hs; [split; [reflexivity|exact Hs]|].
  cbn [fold_left].
  destruct (sha1_round_step w s t Hs) as [E Hw]. rewrite E. apply IH. exact Hw.
Qed.

Lemma Forall_firstn {A : Type} (P : A -> Prop) n l :
  Forall P l -> Forall P (firstn n l).
Proof.
  intros H. revert n. induction H as [|x l Hx _ IH]; intros [|n]; cbn [firstn];
    constructor; auto.
Qed.

Lemma Forall_skipn {A : Type} (P : A -> Prop) n l :
  Forall P l -> Forall P (skipn n l).
Proof.
  intros H. revert n. induction H as [|x l Hx Hl IH]; intros [|n]; cbn [skipn];
    auto.
Qed.

Lemma firstn_4_skipn k (l : list Z) :
  (k + 4 <= length l)%nat ->
  firstn 4 (skipn k l)
  = [nth k l 0; nth (k + 1) l 0; nth (k + 2) l 0; nth (k + 3) l 0].
Proof.
  intros Hk.
  rewrite <- (Nat.add_0_r k) at 2.
  rewrite <- !nth_skipn.
  pose proof (length_skipn k l) as Hlen.
  destruct (skipn k l) as [|a [|b [|c [|d r]]]]; cbn [length] in Hlen; try lia.
  reflexivity.
Qed.

Lemma nth_block view chunk j :
  (j < 64)%nat -> nth j (firstn 64 (skipn chunk view)) 0 = nth (chunk + j) view 0.
Proof.
  intros Hj. rewrite nth_firstn.
  destruct (Nat.ltb_spec j 64) as [_|]; [|lia]. apply nth_skipn.
Qed.

(** The words of a chunk, as the loop loads them. *)
Lemma chunk_words view chunk :
  (chunk + 64 <= length view)%nat ->
  map (fun i => getUint32 view (chunk + i * 4)) (seq 0 16)
  = block_words (firstn 64 (skipn chunk view)).
Proof.
  intros Hc. unfold block_words. apply map_ext_in. intros i Hi.
  apply in_seq in Hi.
  rewrite firstn_4_skipn
    by (rewrite length_firstn, length_skipn; lia).
  rewrite !nth_block by lia.
  unfold getUint32, big_endian_value. cbn [fold_left].
  replace (chunk + i * 4)%nat with (chunk + 4 * i)%nat by lia.
  replace (chunk + (4 * i + 1))%nat with (chunk + 4 * i + 1)%nat by lia.
  replace (chunk + (4 * i + 2))%nat with (chunk + 4 * i + 2)%nat by lia.
  replace (chunk + (4 * i + 3))%nat with (chunk + 4 * i + 3)%nat by lia.
  lia.
Qed.

Lemma block_words_word block :
  Forall is_byte block -> Forall is_word (block_words block).
Proof.
  intros Hb. unfold block_words. apply Forall_forall. intros x Hx.
  apply in_map_iff in Hx. destruct Hx as [i [<- _]].
  set (piece := firstn 4 (skipn (4 * i) block)).
  assert (Hp : Forall is_byte piece)
    by (apply Forall_firstn, Forall_skipn; exact Hb).
  assert (Hl : (length piece <= 4)%nat)
    by (unfold piece; rewrite length_firstn; lia).
  pose proof (big_endian_value_range piece Hp) as Hr.
  assert (256 ^ Z.of_nat (length piece) <= 256 ^ 4)
    by (apply Z.pow_le_mono_r; lia).
  unfold is_word. lia.
Qed.

(** The body of the chunk loop is one FIPS block. *)
Lemma sha1_chunk_block view h chunk :
  Forall is_byte view -> (chunk + 64 <= length view)%nat -> regs_words h ->
  sha1_chunk view h chunk = sha1_block h (firstn 64 (skipn chunk view))
  /\ regs_words (sha1_block h (firstn 64 (skipn chunk view))).
Proof.
  intros Hv Hc Hh. unfold sha1_chunk, sha1_block, sha1_schedule, sha1_expand.
  rewrite (chunk_words view chunk Hc).
  set (block := firstn 64 (skipn chunk view)).
  assert (Hw : Forall is_word (block_words block)).
  { apply block_words_word. unfold block.
    apply Forall_firstn, Forall_skipn. exact Hv. }
  destruct (schedule_extend (seq 16 64) (block_words block) Hw) as [Es _].
  rewrite Es.
  set (w := fold_left _ (seq 16 64) (block_words block)).
  destruct (sha1_rounds w (seq 0 80) h Hh) as [Er _].
  rewrite Er. rewrite !add32_mod.
  split; [reflexivity|].
  unfold regs_words. cbn [ra rb rc rd re].
  repeat split; apply Z.mod_pos_bound; lia.
Qed.

Lemma fold_left_map_seq {A B : Type} (f : A -> B -> A) (g : nat -> B) l :
  forall a, fold_left f (map g l) a = fold_left (fun a j => f a (g j)) l a.
Proof.
  induction l as [|x l IH]; intros a; [reflexivity|]. cbn [map fold_left].
  apply IH.
Qed.

(** The chunk loop is the fold of the FIPS block function over the
    64-byte blocks. *)
Lemma sha1_chunks_blocks view :
  Forall is_byte view -> (length view mod 64 = 0)%nat ->
  fold_left (sha1_chunk view) (chunk_starts (length view)) sha1_init
  = fold_left sha1_block (blocks_of view) sha1_init.
Proof.
  intros Hv Hlen. unfold chunk_starts, blocks_of.
  pose proof (Nat.div_mod_eq (length view) 64) as Hdm. rewrite Hlen in Hdm.
  set (q := (length view / 64)%nat) in *.
  assert (Eq : JS.ceil_div (length view) 64 = q).
  { unfold JS.ceil_div. rewrite Hdm.
    replace (64 * q + 0 + (64 - 1))%nat with (63 + q * 64)%nat by lia.
    rewrite Nat.div_add by lia. reflexivity. }
  rewrite Eq, !fold_left_map_seq.
  assert (Hinit : regs_words sha1_init)
    by (unfold regs_words, is_word; cbn; lia).
  assert (Hfold : forall l h,
             Forall (fun j => (j < q)%nat) l -> regs_words h ->
             fold_left (fun a j => sha1_chunk view a (j * 64)) l h
             = fold_left
                 (fun a j => sha1_block a (firstn 64 (skipn (64 * j) view))) l h).
  { induction l as [|j l IH]; intros h Hl Hh; [reflexivity|].
    inversion Hl as [|? ? Hj Hl']; subst. cbn [fold_left].
    destruct (sha1_chunk_block view h (j * 64) Hv ltac:(lia) Hh) as [E Hw].
    rewrite E. replace (j * 64)%nat with (64 * j)%nat in * by lia.
    apply IH; assumption. }
  apply Hfold; [|exact Hinit].
  apply Forall_forall. intros j Hj. apply in_seq in Hj. lia.
Qed.

Lemma sha1_state_words l :
  forall h, regs_words h -> regs_words (fold_left sha1_block l h).
Proof.
  induction l as [|b l IH]; intros h Hh; [exact Hh|].
  cbn [fold_left]. apply IH.
  unfold sha1_block, regs_words. cbn [ra rb rc rd re].
  repeat split; apply Z.mod_pos_bound; lia.
Qed.

(** The digest bytes: each state word in big-endian order. *)
Lemma sha1_output h :
  regs_words h ->
  fold_left
    (fun result i =>
       setUint32 result (i * 4) (nth i [ra h; rb h; rc h; rd h; re h] 0))
    (seq 0 5) (u8_new 20)
  = big_endian 4 (ra h) ++ big_endian 4 (rb h) ++ big_endian 4 (rc h)
    ++ big_endian 4 (rd h) ++ big_endian 4 (re h).
Proof.
  intros [Ha [Hb [Hc [Hd He]]]].
  unfold u8_new, setUint32, big_endian.
  cbn [seq fold_left repeat nth Nat.mul Nat.add u8_put map Nat.sub app].
  rewrite !ToUint32_id by assumption.
  change (256 ^ Z.of_nat 3) with (2 ^ 24).
  change (256 ^ Z.of_nat 2) with (2 ^ 16).
  change (256 ^ Z.of_nat 1) with (2 ^ 8).
  change (256 ^ Z.of_nat 0) with 1.
  rewrite !Z.div_1_r. reflexivity.
Qed.

(** The source's [sha1] is the FIPS digest of the message it padded. *)
Lemma sha1_digest_of_pad data :
  Forall is_byte data -> sha1 data = sha1_digest (sha1_pad data).
Proof.
  intros Hd. unfold sha1, sha1_digest.
  assert (Hp : Forall is_byte (sha1_pad data)).
  { unfold sha1_pad. apply setUint32_bytes, u8_put_bytes.
    unfold u8_set. cbn [firstn app].
    apply Forall_app. split; [exact Hd|].
    apply Forall_skipn, u8_new_bytes. }
  assert (Hl : (length (sha1_pad data) mod 64 = 0)%nat)
    by (rewrite sha1_pad_length; apply Nat.Div0.mod_mul).
  rewrite (sha1_chunks_blocks _ Hp Hl).
  apply sha1_output.
  apply sha1_state_words.
  unfold regs_words, is_word. cbn. lia.
Qed.

Lemma sha1_is_fips180_aux data :
  Forall is_byte data -> Z.of_nat (length data) < 2 ^ 29 ->
  sha1 data = sha1_spec data.
Proof.
  intros Hd Hlen. rewrite sha1_digest_of_pad by exact Hd.
  unfold sha1_spec. destruct (sha1_pad_short data Hlen) as [E _].
  rewrite E. reflexivity.
Qed.

(** X20: on a sequence of fewer than 2^29 bytes, the source's [sha1]
    is SHA-1 as FIPS 180-1 defines it: the padding with the 64-bit
    length, the schedule, the eighty rounds with their functions and
    constants, all sums modulo 2^32, and the five state words written
    big-endian.  The signed results of the JS bitwise operators never
    show. *)
Theorem sha1_is_fips180 (data : bytes) :
  Forall is_byte data -> Z.of_nat (length data) < 2 ^ 29 ->
  sha1 data = sha1_spec data.
Proof. apply sha1_is_fips180_aux. Qed.

Lemma sha1_is_fips180_witness :
  sha1 (ascii_bytes "abc") = sha1_spec (ascii_bytes "abc").
Proof.
  apply (sha1_is_fips180 (ascii_bytes "abc")).
  - repeat constructor; unfold is_byte; simpl; lia.
  - simpl. lia.
Defined.

(** ** HMAC-SHA1 against RFC 2104 and FIPS 180-1 *)

Lemma lxor_bytes m l :
  is_byte m -> Forall is_byte l -> Forall is_byte (map (fun b => Z.lxor b m) l).
Proof.
  intros Hm. induction 1 as [|x l Hx _ IH]; cbn [map]; constructor; auto.
  apply lxor_byte; assumption.
Qed.

(** X21: for a key and a message of bytes, each of fewer than
    2^29 - 64 bytes, [hmac] is RFC 2104 HMAC over FIPS 180-1 SHA-1. *)
Theorem hmac_is_hmac_sha1 (key data : bytes) :
  Forall is_byte key -> Forall is_byte data ->
  Z.of_nat (length key) < 2 ^ 29 - 64 ->
  Z.of_nat (length data) < 2 ^ 29 - 64 ->
  hmac key data = hmac_over sha1_spec key data.
Proof.
  intros Hk Hd Hlk Hld.
  rewrite hmac_refines by exact Hk. unfold hmac_spec, hmac_over.
  assert (Ek : (if (64 <? length key)%nat then sha1 key else key)
               = (if (64 <? length key)%nat then sha1_spec key else key)).
  { destruct (64 <? length key)%nat; [|reflexivity].
    apply sha1_is_fips180_aux; [exact Hk|lia]. }
  rewrite <- Ek.
  set (key1 := if (64 <? length key)%nat then sha1 key else key).
  assert (Hb1 : Forall is_byte key1).
  { unfold key1. destruct (64 <? length key)%nat; [apply sha1_bytes|exact Hk]. }
  assert (Hl1 : (length key1 <= 64)%nat).
  { unfold key1. destruct (Nat.ltb_spec 64 (length key)); [|lia].
    rewrite sha1_length. lia. }
  set (block := key1 ++ repeat 0 (64 - length key1)).
  assert (Hbb : Forall is_byte block).
  { unfold block. apply Forall_app. split; [exact Hb1|].
    apply (u8_new_bytes (64 - length key1)). }
  assert (Hlb : length block = 64%nat)
    by (unfold block; rewrite length_app, repeat_length; lia).
  assert (Ei : sha1 (map (fun b => Z.lxor b 0x36) block ++ data)
               = sha1_spec (map (fun b => Z.lxor b 0x36) block ++ data)).
  { apply sha1_is_fips180_aux.
    - apply Forall_app. split; [|exact Hd].
      apply lxor_bytes; [unfold is_byte; lia|exact Hbb].
    - rewrite length_app, length_map, Hlb. lia. }
  rewrite <- Ei.
  apply sha1_is_fips180_aux.
  - apply Forall_app. split; [|apply sha1_bytes].
    apply lxor_bytes; [unfold is_byte; lia|exact Hbb].
  - rewrite length_app, length_map, Hlb, sha1_length. lia.
Qed.

Lemma hmac_is_hmac_sha1_witness :
  hmac (repeat 0x0b 20) (ascii_bytes "Hi There")
  = hmac_over sha1_spec (repeat 0x0b 20) (ascii_bytes "Hi There").
Proof.
  apply (hmac_is_hmac_sha1 (repeat 0x0b 20) (ascii_bytes "Hi There")).
  - repeat constructor; unfold is_byte; lia.
  - repeat constructor; unfold is_byte; simpl; lia.
  - simpl. lia.
  - simpl. lia.
Defined.

(** ** [getQRCodeURL] *)

Lemma forallb_chars_app (f : ascii -> bool) (a b : string) :
  forallb f (list_ascii_of_string (a ++ b))
  = forallb f (list_ascii_of_string a) && forallb f (list_ascii_of_string b).
Proof. rewrite list_ascii_of_string_app. apply forallb_app. Qed.

(** One character through [encodeURIComponent]. *)
Lemma uri_piece_safe c :
  forallb url_safe
          (list_ascii_of_string
             (if uri_unreserved (code c) then String c EmptyString
              else percent_utf8 (code c)))
  = true.
Proof. destruct c as [[] [] [] [] [] [] [] []]; reflexivity. Qed.

Lemma uri_piece_decode c rest :
  percent_decode
    ((if uri_unreserved (code c) then String c EmptyString
      else percent_utf8 (code c)) ++ rest)
  = utf8 (code c) ++ percent_decode rest.
Proof.
  destruct c as [[] [] [] [] [] [] [] []];
    destruct rest as [|h [|l r]]; reflexivity.
Qed.

(** One character through the form serializer. *)
Lemma form_piece_safe c :
  forallb form_safe
          (list_ascii_of_string
             (if form_unreserved (code c) then String c EmptyString
              else if code c =? 0x20 then String "+" EmptyString
                   else percent_utf8 (code c)))
  = true.
Proof. destruct c as [[] [] [] [] [] [] [] []]; reflexivity. Qed.

Lemma form_piece_decode c rest :
  form_decode
    ((if form_unreserved (code c) then String c EmptyString
      else if code c =? 0x20 then String "+" EmptyString
           else percent_utf8 (code c)) ++ rest)
  = utf8 (code c) ++ form_decode rest.
Proof.
  destruct c as [[] [] [] [] [] [] [] []];
    destruct rest as [|h [|l r]]; reflexivity.
Qed.

Lemma encodeURIComponent_safe s :
  forallb url_safe (list_ascii_of_string (encodeURIComponent s)) = true.
Proof.
  induction s as [|c tl IH]; [reflexivity|].
  cbn [encodeURIComponent]. rewrite forallb_chars_app, uri_piece_safe, IH.
  reflexivity.
Qed.

Lemma encodeURIComponent_decode s :
  percent_decode (encodeURIComponent s) = utf8_bytes s.
Proof.
  unfold utf8_bytes, codes.
  induction s as [|c tl IH]; [reflexivity|].
  cbn [encodeURIComponent list_ascii_of_string map flat_map].
  rewrite uri_piece_decode, IH. reflexivity.
Qed.

Lemma form_encode_safe s :
  forallb form_safe (list_ascii_of_string (form_encode s)) = true.
Proof.
  induction s as [|c tl IH]; [reflexivity|].
  cbn [form_encode]. rewrite forallb_chars_app, form_piece_safe, IH.
  reflexivity.
Qed.

Lemma form_encode_decode s : form_decode (form_encode s) = utf8_bytes s.
Proof.
  unfold utf8_bytes, codes.
  induction s as [|c tl IH]; [reflexivity|].
  cbn [form_encode list_ascii_of_string map flat_map].
  rewrite form_piece_decode, IH. reflexivity.
Qed.

Lemma form_encode_alphabet l :
  Forall (fun c => in_alphabet c = true) l ->
  form_encode (string_of_codes l) = string_of_codes l.
Proof.
  unfold string_of_codes.
  induction 1 as [|c l Hc _ IH]; [reflexivity|].
  cbn [map string_of_list_ascii form_encode]. rewrite IH.
  apply in_alphabet_In in Hc. cbv in Hc.
  repeat (destruct Hc as [<- | Hc]; [reflexivity|]). contradiction.
Qed.

(** X22: the URL [getQRCodeURL] returns is the address of the QR
    service followed by one [data] parameter made of unreserved characters
    and percent escapes only, so no character of the label, the issuer or
    the secret can end or split it; percent-decoding that parameter gives
    the UTF-8 bytes of the [otpauth] URI. *)
Theorem getQRCodeURL_data (this : TOTP) (label : string)
        (issuer : option string) :
  plain_number (digits this) -> plain_number (period this) ->
  exists data,
    getQRCodeURL this label issuer
    = ("https://api.qrserver.com/v1/create-qr-code/?size=200x200&data="
       ++ data)%string
    /\ forallb url_safe (list_ascii_of_string data) = true
    /\ percent_decode data = utf8_bytes (otpauth_uri this label issuer).
Proof.
  intros _ _.
  exists (encodeURIComponent (otpauth_uri this label issuer)).
  split; [reflexivity|].
  split; [apply encodeURIComponent_safe|apply encodeURIComponent_decode].
Qed.

Lemma getQRCodeURL_data_witness :
  exists data,
    getQRCodeURL (default_instance "JBSWY3DPEHPK3PXP") "alice@example.com" None
    = ("https://api.qrserver.com/v1/create-qr-code/?size=200x200&data="
       ++ data)%string
    /\ forallb url_safe (list_ascii_of_string data) = true
    /\ percent_decode data
       = utf8_bytes (otpauth_uri (default_instance "JBSWY3DPEHPK3PXP")
                                 "alice@example.com" None).
Proof.
  apply (getQRCodeURL_data (default_instance "JBSWY3DPEHPK3PXP")
                           "alice@example.com" None);
    unfold plain_number; simpl; lia.
Defined.

(** X23: the [otpauth] URI inside that URL has the label as its path and
    the five parameters secret, issuer, algorithm, digits and period, in
    this order; the label holds only unreserved characters and percent
    escapes, each value only form-safe characters, so that the separators
    ?, & and = are the URI's own; each decodes to the UTF-8 bytes of what
    went in, an absent or empty issuer being TOTP; and a secret of
    alphabet characters stands in the URI as it is. *)
Theorem otpauth_uri_parts (this : TOTP) (label : string)
        (issuer : option string) :
  plain_number (digits this) -> plain_number (period this) ->
  exists path v1 v2 v3 v4 v5,
    otpauth_uri this label issuer
    = ("otpauth://totp/" ++ path ++ "?secret=" ++ v1 ++ "&issuer=" ++ v2
       ++ "&algorithm=" ++ v3 ++ "&digits=" ++ v4 ++ "&period=" ++ v5)%string
    /\ forallb url_safe (list_ascii_of_string path) = true
    /\ percent_decode path = utf8_bytes label
    /\ Forall (fun v => forallb form_safe (list_ascii_of_string v) = true)
              [v1; v2; v3; v4; v5]
    /\ form_decode v1 = utf8_bytes (secret this)
    /\ form_decode v2
       = utf8_bytes (match issuer with
                     | Some EmptyString | None => "TOTP"
                     | Some i => i
                     end)
    /\ form_decode v3 = utf8_bytes (algorithm this)
    /\ form_decode v4 = utf8_bytes (toString (digits this))
    /\ form_decode v5 = utf8_bytes (toString (period this))
    /\ (Forall (fun c => in_alphabet c = true) (codes (secret this)) ->
        v1 = secret this).
Proof.
  intros _ _.
  exists (encodeURIComponent label), (form_encode (secret this)),
    (form_encode (JS.or_default_str issuer "TOTP")),
    (form_encode (algorithm this)), (form_encode (toString (digits this))),
    (form_encode (toString (period this))).
  split.
  { unfold otpauth_uri. cbn [form_serialize].
    change (form_encode "secret") with "secret"%string.
    change (form_encode "issuer") with "issuer"%string.
    change (form_encode "algorithm") with "algorithm"%string.
    change (form_encode "digits") with "digits"%string.
    change (form_encode "period") with "period"%string.
    rewrite !string_append_assoc. cbn [String.append]. reflexivity. }
  split; [apply encodeURIComponent_safe|].
  split; [apply encodeURIComponent_decode|].
  split; [repeat constructor; apply form_encode_safe|].
  split; [apply form_encode_decode|].
  split.
  { rewrite form_encode_decode. destruct issuer as [[|c i]|]; reflexivity. }
  split; [apply form_encode_decode|].
  split; [apply form_encode_decode|].
  split; [apply form_encode_decode|].
  intros Hs.
  assert (E : string_of_codes (codes (secret this)) = secret this).
  { unfold string_of_codes, codes. rewrite map_map.
    rewrite <- (string_of_list_ascii_of_string (secret this)) at 2.
    f_equal. rewrite <- (map_id (list_ascii_of_string (secret this))) at 2.
    apply map_ext. intros c. unfold char_of, code.
    rewrite N2Z.id. apply ascii_N_embedding. }
  rewrite <- E. apply form_encode_alphabet. exact Hs.
Qed.

Lemma otpauth_uri_parts_witness :
  exists path v1 v2 v3 v4 v5,
    otpauth_uri (default_instance "JBSWY3DPEHPK3PXP") "alice@example.com" None
    = ("otpauth://totp/" ++ path ++ "?secret=" ++ v1 ++ "&issuer=" ++ v2
       ++ "&algorithm=" ++ v3 ++ "&digits=" ++ v4 ++ "&period=" ++ v5)%string
    /\ forallb url_safe (list_ascii_of_string path) = true
    /\ percent_decode path = utf8_bytes "alice@example.com".
Proof.
  destruct (otpauth_uri_parts (default_instance "JBSWY3DPEHPK3PXP")
                              "alice@example.com" None)
    as [path [v1 [v2 [v3 [v4 [v5 [H1 [H2 [H3 _]]]]]]]]].
  - unfold plain_number. simpl. lia.
  - unfold plain_number. simpl. lia.
  - exists path, v1, v2, v3, v4, v5. auto.
Defined.

(** ** From the constructor to an accepted code *)



(** ** Exact verification, and separators in a secret *)

(** X25: with window 0 [verify] accepts exactly the code of the
    timestamp's own counter. *)
Theorem verify_window_zero (this : TOTP) (token : string) (timestamp : Z) :
  in_scope this ->
  (verify this token 0 timestamp = true <-> token = generate this timestamp).
Proof.
  intros _. rewrite verify_true_iff. unfold generate. split.
  - intros [i [Hi Heq]]. assert (i = 0) by lia. subst i.
    rewrite Z.add_0_r in Heq. symmetry. exact Heq.
  - intros ->. exists 0. split; [lia|]. rewrite Z.add_0_r. reflexivity.
Qed.

Lemma verify_window_zero_witness :
  verify (default_instance "GEZDGNBVGY3TQOJQ") "000000" 0 0 = true
  <-> "000000"%string = generate (default_instance "GEZDGNBVGY3TQOJQ") 0.
Proof.
  apply (verify_window_zero (default_instance "GEZDGNBVGY3TQOJQ")).
  split; [simpl; lia|discriminate].
Defined.

Lemma toUpperCase_app a b :
  toUpperCase (a ++ b) = toUpperCase a ++ toUpperCase b.
Proof.
  unfold toUpperCase, codes.
  rewrite list_ascii_of_string_app, map_app, flat_map_app. reflexivity.
Qed.

Lemma toUpperCase_run k :
  filter in_alphabet (toUpperCase (string_of_list_ascii (repeat "="%char k)))
  = [].
Proof. induction k as [|k IH]; [reflexivity|]. exact IH. Qed.

(** The stripping of the padding changes nothing to what counts. *)
Lemma valid_strip_padding s :
  filter in_alphabet (toUpperCase (strip_padding s))
  = filter in_alphabet (toUpperCase s).
Proof.
  destruct (strip_padding_run s) as [k E].
  rewrite E at 2.
  rewrite toUpperCase_app, filter_app, toUpperCase_run, app_nil_r.
  reflexivity.
Qed.

Lemma base32Decode_valid s s' :
  filter in_alphabet (toUpperCase s) = filter in_alphabet (toUpperCase s') ->
  base32Decode s = base32Decode s'.
Proof.
  intros E. rewrite !base32Decode_fold.
  rewrite (b32_fold_filter (toUpperCase (strip_padding s))).
  rewrite (b32_fold_filter (toUpperCase (strip_padding s'))).
  rewrite !valid_strip_padding, E. reflexivity.
Qed.

(** X26: characters outside the alphabet are separators without
    meaning wherever they stand: a run of characters none of which
    uppercases to alphabet characters (spaces, dashes, '=' signs, digits
    0, 1, 8, 9) can be put into or taken out of a secret, in the middle as
    at the end, without changing the decoded key. *)
Theorem base32Decode_ignores_separators (a sep b : string) :
  filter in_alphabet (toUpperCase sep) = [] ->
  base32Decode (a ++ sep ++ b) = base32Decode (a ++ b).
Proof.
  intros Hsep. apply base32Decode_valid.
  rewrite !toUpperCase_app, !filter_app, Hsep. reflexivity.
Qed.

Lemma base32Decode_ignores_separators_witness :
  base32Decode ("MZXW" ++ " -= 0189" ++ "6YTB") = base32Decode ("MZXW" ++ "6YTB").
Proof.
  apply (base32Decode_ignores_separators "MZXW" " -= 0189" "6YTB").
  reflexivity.
Defined.
